(** * Klingon-Translator: the dictionary matching engine

    A shallow embedding of the translation engine of the repository
    (TextNormalizer, SimilarityCalculator, DictionaryMatcher,
    TranslationProcessor, LanguageConfig and translationService) and the
    properties its specification states about it.

    Modelling conventions.
    - A JavaScript string is the list of its UTF-16 code units ([jsstring]).
    - [String.prototype.toLowerCase] is a built-in whose Unicode tables are not
      part of the repository: the engine is parameterised by it (a Section
      variable).  [toLowerCaseASCII] is its restriction to ASCII text, on which
      both agree; every concrete evaluation in this file is on ASCII text.
    - JavaScript numbers: the cells of the edit-distance matrix are integers
      ([Z]); similarities are exact rationals ([Q]).  Every similarity the
      engine computes is [1 - d / m] for integers [0 <= d <= m], compared
      against decimal literals; correctly rounded double arithmetic agrees
      with the rationals on these comparisons for strings of any realistic
      length (the rationals compared differ by at least [1 / (5 * m)] or
      [1 / (m * m')], far above the rounding error of a double).
    - A JavaScript array is a list of optional cells ([None] is a hole);
      writing past the end extends the array.  Using an absent element
      (indexing [undefined], or doing arithmetic on it) is the one way the
      engine's code could go wrong; it is modelled by the [Abrupt] outcome of
      the [Completion] monad. *)

From Stdlib Require Import String Ascii ZArith NArith QArith Lia Lqa Permutation Sorted.
From stdpp Require Import base option list.

(** ** JavaScript strings *)

Abbreviation jsstring := (list N).

(** The code units of an ASCII literal. *)
Definition js (s : string) : jsstring :=
  List.map N_of_ascii (list_ascii_of_string s).

Fixpoint streq (a b : jsstring) : bool :=
  match a, b with
  | [], [] => true
  | x :: a', y :: b' => (x =? y)%N && streq a' b'
  | _, _ => false
  end.

(** [WhiteSpace] and [LineTerminator] of ECMAScript: the set both
    [String.prototype.trim] and the regular expression class [\s] use. *)
Definition isWhiteSpace (c : N) : bool :=
  ((c =? 9) || (c =? 10) || (c =? 11) || (c =? 12) || (c =? 13) || (c =? 32)
   || (c =? 0xa0) || (c =? 0x1680) || ((0x2000 <=? c) && (c <=? 0x200a))
   || (c =? 0x2028) || (c =? 0x2029) || (c =? 0x202f) || (c =? 0x205f)
   || (c =? 0x3000) || (c =? 0xfeff))%N.

(** The character class [[.,!?;:]]. *)
Definition isPunctuation (c : N) : bool :=
  ((c =? 46) || (c =? 44) || (c =? 33) || (c =? 63) || (c =? 59) || (c =? 58))%N.

Definition space : N := 32%N.

Fixpoint trimStart (s : jsstring) : jsstring :=
  match s with
  | [] => []
  | c :: s' => if isWhiteSpace c then trimStart s' else s
  end.

Definition trimEnd (s : jsstring) : jsstring := rev (trimStart (rev s)).

(** [s.trim()] *)
Definition trim (s : jsstring) : jsstring := trimEnd (trimStart s).

(** [s.replace(/[.,!?;:]/g, e)] with [e] the empty string. *)
Definition removePunctuation (s : jsstring) : jsstring :=
  List.filter (fun c => negb (isPunctuation c)) s.

(** [s.replace(/\s+/g, " ")]: [inRun] tells that the previous code unit
    belonged to the run of white space being replaced. *)
Fixpoint collapseFrom (inRun : bool) (s : jsstring) : jsstring :=
  match s with
  | [] => []
  | c :: s' =>
      if isWhiteSpace c
      then (if inRun then collapseFrom true s' else space :: collapseFrom true s')
      else c :: collapseFrom false s'
  end.

Definition collapseWhitespace (s : jsstring) : jsstring := collapseFrom false s.

Fixpoint startsWith (s prefix : jsstring) : bool :=
  match prefix, s with
  | [], _ => true
  | p :: prefix', c :: s' => (p =? c)%N && startsWith s' prefix'
  | _ :: _, [] => false
  end.

(** [s.includes(needle)] *)
Fixpoint includes (s needle : jsstring) : bool :=
  startsWith s needle ||
  match s with
  | [] => false
  | _ :: s' => includes s' needle
  end.

(** [s.charAt(i)]: the empty string when [i] is out of range. *)
Definition charAt (s : jsstring) (i : nat) : jsstring :=
  match s !! i with
  | Some c => [c]
  | None => []
  end.

(** Truthiness of a string: only the empty string is falsy. *)
Definition truthy (s : jsstring) : bool :=
  match s with
  | [] => false
  | _ :: _ => true
  end.

(** Lower-casing of ASCII text: [A-Z] to [a-z], every other code unit kept. *)
Definition lowerUnit (c : N) : N :=
  if ((65 <=? c) && (c <=? 90))%N then (c + 32)%N else c.

Definition toLowerCaseASCII (s : jsstring) : jsstring := List.map lowerUnit s.

(** ** Rationals as JavaScript numbers *)

Definition Qgtb (x y : Q) : bool := negb (Qle_bool x y).
Definition Qgeb (x y : Q) : bool := Qle_bool y x.

(** ** Outcomes of running JavaScript code *)

Inductive Completion (A : Type) : Type :=
| Normal (a : A)
| Abrupt.
Arguments Normal {A} a.
Arguments Abrupt {A}.

#[global] Instance Completion_ret : MRet Completion := fun A a => Normal a.
#[global] Instance Completion_bind : MBind Completion := fun A B f c =>
  match c with
  | Normal a => f a
  | Abrupt => Abrupt
  end.

(** An element that must be there: indexing or computing with [undefined]
    ends the run. *)
Definition defined {A} (o : option A) : Completion A :=
  match o with
  | Some a => Normal a
  | None => Abrupt
  end.

(** ** JavaScript arrays *)

Abbreviation JSArray A := (list (option A)).

(** [a[i]] as a value: [None] is [undefined]. *)
Definition arrGet {A} (a : JSArray A) (i : nat) : option A :=
  match a !! i with
  | Some (Some v) => Some v
  | _ => None
  end.

(** [a[i] = v]: in range the cell is overwritten, past the end the array
    grows and the cells in between are holes. *)
Definition arrSet {A} (a : JSArray A) (i : nat) (v : A) : JSArray A :=
  if (i <? length a)%nat
  then <[i := Some v]> a
  else a ++ replicate (i - length a) None ++ [Some v].

(** [for (let i = lo; i <= hi; i++) body]: [forRange body i n s] runs the body
    for [i], [i+1], ... ([n] iterations) from state [s]. *)
Fixpoint forRange {St} (body : nat -> St -> Completion St) (i n : nat) (s : St)
  : Completion St :=
  match n with
  | O => Normal s
  | S n' => s' ← body i s; forRange body (i + 1) n' s'
  end.

Definition forUpTo {St} (lo hi : nat) (body : nat -> St -> Completion St) (s : St)
  : Completion St :=
  forRange body lo (hi + 1 - lo) s.

(** ** SimilarityCalculator *)

(** [const matrix: number[][]] *)
Abbreviation Matrix := (JSArray (JSArray Z)).

(** [matrix[i][j]] used as a number. *)
Definition readCell (matrix : Matrix) (i j : nat) : Completion Z :=
  row ← defined (arrGet matrix i);
  defined (arrGet row j).

(** [matrix[i][j] = v]: the row object is updated in place. *)
Definition writeCell (matrix : Matrix) (i j : nat) (v : Z) : Completion Matrix :=
  row ← defined (arrGet matrix i);
  mret (arrSet matrix i (arrSet row j v)).

(** [for (let i = 0; i <= len2; i++) matrix[i] = [i];] *)
Definition initRows (len2 : nat) (matrix : Matrix) : Completion Matrix :=
  forUpTo 0 len2 (fun i m => mret (arrSet m i [Some (Z.of_nat i)])) matrix.

(** [for (let j = 0; j <= len1; j++) matrix[0][j] = j;] *)
Definition initFirstRow (len1 : nat) (matrix : Matrix) : Completion Matrix :=
  forUpTo 0 len1 (fun j m => writeCell m 0 j (Z.of_nat j)) matrix.

(** The body of the inner loop. *)
Definition fillCell (str1 str2 : jsstring) (i j : nat) (matrix : Matrix)
  : Completion Matrix :=
  if streq (charAt str2 (i - 1)) (charAt str1 (j - 1))
  then
    d ← readCell matrix (i - 1) (j - 1);
    writeCell matrix i j d
  else
    substitution ← readCell matrix (i - 1) (j - 1);
    insertion ← readCell matrix i (j - 1);
    deletion ← readCell matrix (i - 1) j;
    writeCell matrix i j
      (Z.min (substitution + 1) (Z.min (insertion + 1) (deletion + 1))).

(** The matrix once the three loops have run. *)
Definition levenshteinMatrix (str1 str2 : jsstring) : Completion Matrix :=
  let len1 := length str1 in
  let len2 := length str2 in
  matrix ← initRows len2 [];
  matrix ← initFirstRow len1 matrix;
  forUpTo 1 len2
    (fun i m => forUpTo 1 len1 (fun j m' => fillCell str1 str2 i j m') m)
    matrix.

Definition calculateSimilarity (str1 str2 : jsstring) : Completion Q :=
  let len1 := length str1 in
  let len2 := length str2 in
  if (len1 =? 0)%nat && (len2 =? 0)%nat then mret 1%Q
  else if (len1 =? 0)%nat || (len2 =? 0)%nat then mret 0%Q
  else
    matrix ← levenshteinMatrix str1 str2;
    distance ← readCell matrix len2 len1;
    let maxLen := Nat.max len1 len2 in
    mret (1 - inject_Z distance / inject_Z (Z.of_nat maxLen))%Q.

Definition isSimilar (str1 str2 : jsstring) (threshold : Q) : Completion bool :=
  similarity ← calculateSimilarity str1 str2;
  mret (Qgeb similarity threshold).

(** The loop of [findMostSimilar], from the current [maxSimilarity] and
    [mostSimilar] ([None] is [null]). *)
Fixpoint scanCandidates (target : jsstring) (candidates : list jsstring)
    (maxSimilarity : Q) (mostSimilar : option jsstring)
  : Completion (option jsstring) :=
  match candidates with
  | [] => mret mostSimilar
  | candidate :: rest =>
      similarity ← calculateSimilarity target candidate;
      if Qgtb similarity maxSimilarity
      then scanCandidates target rest similarity (Some candidate)
      else scanCandidates target rest maxSimilarity mostSimilar
  end.

Definition findMostSimilar (target : jsstring) (candidates : list jsstring)
  : Completion (option jsstring) :=
  if (length candidates =? 0)%nat then mret None
  else scanCandidates target candidates 0%Q None.

(** ** Types (types/translation, types/language) *)

Inductive PartOfSpeech :=
| noun | verb | adjective | adverb | pronoun | conjunction | exclamation
| question | numeral | unknown.

Record Example := {
  example_english : jsstring;
  example_klingon : jsstring;
  example_phonetic : option jsstring;
  example_context : option jsstring
}.

(** A dictionary entry.  [english] and [klingon] are required strings;
    the optional properties are [None] when absent. *)
Record Translation := {
  id : jsstring;
  english : jsstring;
  klingon : jsstring;
  phonetic : option jsstring;
  partOfSpeech : option PartOfSpeech;
  category : option jsstring;
  examples : option (list Example)
}.

Record TranslationResult := {
  input : jsstring;
  output : jsstring;
  result_phonetic : option jsstring;
  confidence : Q;
  suggestions : list Translation
}.

Inductive LanguageCode := en | tlh.
Inductive LanguageDirection := ltr | rtl.

Record LanguageOption := {
  code : LanguageCode;
  name : jsstring;
  flag : jsstring;
  direction : LanguageDirection
}.

(** The string a language code is at run time. *)
Definition codeString (c : LanguageCode) : jsstring :=
  match c with
  | en => js "en"
  | tlh => js "tlh"
  end.

(** The property names ["english" | "klingon"] used to index an entry. *)
Inductive FieldName := englishField | klingonField.

(** [translation[field]] *)
Definition getField (field : FieldName) (translation : Translation) : jsstring :=
  match field with
  | englishField => english translation
  | klingonField => klingon translation
  end.

Record MatchResult := {
  translation : Translation;
  similarity : Q
}.

Record TranslationOptions := {
  text : jsstring;
  fromLanguage : jsstring;
  toLanguage : jsstring
}.

(** ** Array.prototype.sort and slice *)

(** [Array.prototype.sort] is stable, and for a consistent comparator its
    result is the one stable ordering of the array; insertion from the right
    computes it.  [x] moves behind [y] only when [compare x y > 0]. *)
Fixpoint insertSorted {A} (compare : A -> A -> Q) (x : A) (l : list A) : list A :=
  match l with
  | [] => [x]
  | y :: l' =>
      if Qgtb (compare x y) 0
      then y :: insertSorted compare x l'
      else x :: l
  end.

Fixpoint sort {A} (compare : A -> A -> Q) (l : list A) : list A :=
  match l with
  | [] => []
  | x :: l' => insertSorted compare x (sort compare l')
  end.

(** [l.slice(start, end)] for [0 <= start <= end]. *)
Definition slice {A} (start end_ : nat) (l : list A) : list A :=
  firstn (end_ - start) (skipn start l).

(** ** LanguageConfig *)

Definition flagUS : jsstring := [0xD83C; 0xDDFA; 0xD83C; 0xDDF8]%N.
Definition flagVulcanSalute : jsstring := [0xD83D; 0xDD96]%N.

Definition languageOptions : list LanguageOption :=
  [ {| code := en; name := js "English"; flag := flagUS; direction := ltr |};
    {| code := tlh; name := js "Klingon (tlhIngan Hol)";
       flag := flagVulcanSalute; direction := ltr |} ].

(** [languageOptions.some((lang) => lang.code === code)] *)
Definition isLanguageSupported (c : jsstring) : bool :=
  existsb (fun lang => streq (codeString (code lang)) c) languageOptions.

Section Engine.

(** [String.prototype.toLowerCase]. *)
Variable toLowerCase : jsstring -> jsstring.

(** ** TextNormalizer *)

Definition normalizeText (text : jsstring) : jsstring :=
  collapseWhitespace (removePunctuation (trim (toLowerCase text))).

Definition isExactMatch (text1 text2 : jsstring) : bool :=
  streq (normalizeText text1) (normalizeText text2).

Definition containsText (text searchTerm : jsstring) : bool :=
  let normalizedText := normalizeText text in
  let normalizedTerm := normalizeText searchTerm in
  includes normalizedText normalizedTerm || includes normalizedTerm normalizedText.

Definition isEmptyText (text : jsstring) : bool :=
  streq (normalizeText text) [].

(** ** DictionaryMatcher *)

Definition calculateMatchSimilarity (normalizedInput sourceText : jsstring)
  : Completion Q :=
  let normalizedSource := normalizeText sourceText in
  if isExactMatch normalizedInput normalizedSource then mret 1%Q
  else if containsText normalizedInput normalizedSource then mret (9 # 10)%Q
  else calculateSimilarity normalizedInput normalizedSource.

(** The [for ... of] loop of [findMatches]; [matches] is the array built so
    far, [push] appends to it. *)
Fixpoint collectMatches (normalizedInput : jsstring) (sourceField : FieldName)
    (dictionary : list Translation) (matches : list MatchResult)
  : Completion (list MatchResult) :=
  match dictionary with
  | [] => mret matches
  | translation :: rest =>
      let sourceText := getField sourceField translation in
      if negb (truthy sourceText)
      then collectMatches normalizedInput sourceField rest matches
      else
        similarity ← calculateMatchSimilarity normalizedInput sourceText;
        if Qgtb similarity (6 # 10)
        then collectMatches normalizedInput sourceField rest
               (matches ++ [{| translation := translation; similarity := similarity |}])
        else collectMatches normalizedInput sourceField rest matches
  end.

Definition findMatches (input : jsstring) (dictionary : list Translation)
    (sourceField : FieldName) : Completion (list Translation) :=
  if negb (truthy (trim input)) then mret []
  else
    let normalizedInput := normalizeText input in
    matches ← collectMatches normalizedInput sourceField dictionary [];
    mret (List.map translation
            (sort (fun a b => similarity b - similarity a)%Q matches)).

(** ** TranslationProcessor *)

Definition createEmptyResult (input : jsstring) : TranslationResult :=
  {| input := input; output := []; result_phonetic := None;
     confidence := 0; suggestions := [] |}.

(** The template literal [`[${input}]`]. *)
Definition bracketed (input : jsstring) : jsstring := js "[" ++ input ++ js "]".

Definition createUnknownResult (input : jsstring) : TranslationResult :=
  {| input := input; output := bracketed input; result_phonetic := None;
     confidence := 0; suggestions := [] |}.

Definition processTranslation (input : jsstring) (matches : list Translation)
    (sourceLanguage targetLanguage : LanguageOption)
  : Completion TranslationResult :=
  if isEmptyText input then mret (createEmptyResult input)
  else
    match matches with
    | [] => mret (createUnknownResult input)
    | bestMatch :: _ =>
        let targetField :=
          match code sourceLanguage with en => klingonField | tlh => englishField end in
        let sourceField :=
          match code sourceLanguage with en => englishField | tlh => klingonField end in
        confidence ←
          calculateSimilarity (normalizeText input)
                              (normalizeText (getField sourceField bestMatch));
        mret {| input := input;
                output := getField targetField bestMatch;
                result_phonetic :=
                  match targetField with
                  | klingonField => phonetic bestMatch
                  | englishField => None
                  end;
                confidence := confidence;
                suggestions := slice 1 4 matches |}
    end.

Definition isSuccessfulTranslation (result : TranslationResult) (threshold : Q)
  : bool :=
  Qgeb (confidence result) threshold
  && negb (streq (output result) [])
  && negb (startsWith (output result) (js "[")).

(** ** translationService *)

(** The dictionary module (data/klingonDictionary) is supplied from outside. *)
Variable klingonDictionary : list Translation.

Definition createErrorResult (_message input : jsstring) : TranslationResult :=
  {| input := input; output := []; result_phonetic := None;
     confidence := 0; suggestions := [] |}.

Definition translateText (options : TranslationOptions)
  : Completion TranslationResult :=
  let text := text options in
  let fromLanguage := fromLanguage options in
  let toLanguage := toLanguage options in
  if isEmptyText text
  then mret (createErrorResult (js "Empty input text") text)
  else if negb (isLanguageSupported fromLanguage)
          || negb (isLanguageSupported toLanguage)
  then mret (createErrorResult (js "Unsupported language pair") text)
  else
    let sourceField :=
      if streq (toLowerCase fromLanguage) (js "klingon")
      then klingonField else englishField in
    matches ← findMatches text klingonDictionary sourceField;
    let sourceLang :=
      {| code := if streq fromLanguage (js "klingon") then tlh else en;
         name := if streq fromLanguage (js "klingon")
                 then js "Klingon" else js "English";
         flag := if streq fromLanguage (js "klingon")
                 then flagVulcanSalute else flagUS;
         direction := ltr |} in
    let targetLang :=
      {| code := if streq toLanguage (js "klingon") then tlh else en;
         name := if streq toLanguage (js "klingon")
                 then js "Klingon" else js "English";
         flag := if streq toLanguage (js "klingon")
                 then flagVulcanSalute else flagUS;
         direction := ltr |} in
    processTranslation text matches sourceLang targetLang.

End Engine.

(** * Vocabulary of the properties *)

(** ** Edit-distance matrix *)

(** [matrix[i][j]] as a pure read. *)
Definition cell (matrix : Matrix) (i j : nat) : option Z :=
  match arrGet matrix i with
  | Some row => arrGet row j
  | None => None
  end.

(** On the cells of region [D] the matrix holds a number between [0] and
    the larger of the two indices. *)
Definition Known (matrix : Matrix) (D : nat -> nat -> Prop) : Prop :=
  forall r c, D r c ->
    exists v, cell matrix r c = Some v /\ (0 <= v <= Z.of_nat (Nat.max r c))%Z.

(** The region filled when the inner loop is about to write cell [(i, j)]. *)
Definition filledUpTo (len1 len2 i j : nat) (r c : nat) : Prop :=
  r <= len2 /\ c <= len1 /\ (c = 0%nat \/ r < i \/ (r = i /\ c < j)).

(** ** Scores of candidates *)

(** [scoreOf target c P]: the similarity of [c] to [target] satisfies [P]. *)
Definition scoreOf (target candidate : jsstring) (P : Q -> Prop) : Prop :=
  exists score, calculateSimilarity target candidate = Normal score /\ P score.

(** What [maxSimilarity] and [mostSimilar] record about the candidates seen. *)
Definition scanned (target : jsstring) (seen : list jsstring)
    (maxSimilarity : Q) (mostSimilar : option jsstring) : Prop :=
  match mostSimilar with
  | None =>
      (maxSimilarity == 0)%Q /\
      Forall (fun c => scoreOf target c (fun q => q == 0)%Q) seen
  | Some best =>
      exists before after,
        seen = before ++ best :: after /\
        calculateSimilarity target best = Normal maxSimilarity /\
        (0 < maxSimilarity)%Q /\
        Forall (fun c => scoreOf target c (fun q => q < maxSimilarity)%Q) before /\
        Forall (fun c => scoreOf target c (fun q => q <= maxSimilarity)%Q) after
  end.

(** ** Ranking *)

(** [Above key a b]: [a] may stand before [b] in a list sorted by [key],
    highest first. *)
Definition Above {A : Type} (key : A -> Q) (a b : A) : Prop := (key b <= key a)%Q.

(** The tier similarity [findMatches] assigns to an entry exceeds the
    threshold, and the entry has the searched field. *)
Definition passes (toLowerCase : jsstring -> jsstring)
    (normalizedInput : jsstring) (sourceField : FieldName) (e : Translation) : bool :=
  truthy (getField sourceField e) &&
  match calculateMatchSimilarity toLowerCase normalizedInput (getField sourceField e) with
  | Normal q => Qgtb q (6 # 10)
  | Abrupt => false
  end.

(** The tier similarity assigned to an entry is [q]. *)
Definition hasSimilarity (toLowerCase : jsstring -> jsstring)
    (normalizedInput : jsstring) (sourceField : FieldName) (q : Q) (e : Translation) : bool :=
  match calculateMatchSimilarity toLowerCase normalizedInput (getField sourceField e) with
  | Normal q' => Qeq_bool q' q
  | Abrupt => false
  end.

(** [rankedAbove a b]: the tier similarity of [a] is at least that of [b]. *)
Definition rankedAbove (toLowerCase : jsstring -> jsstring)
    (normalizedInput : jsstring) (sourceField : FieldName) (a b : Translation) : Prop :=
  exists qa qb,
    calculateMatchSimilarity toLowerCase normalizedInput (getField sourceField a) = Normal qa /\
    calculateMatchSimilarity toLowerCase normalizedInput (getField sourceField b) = Normal qb /\
    (qb <= qa)%Q.

(** The entries of the dictionary that [findMatches] keeps, in the order of
    the dictionary. *)
Definition keptEntries (toLowerCase : jsstring -> jsstring)
    (input : jsstring) (dictionary : list Translation) (sourceField : FieldName)
  : list Translation :=
  if truthy (trim input)
  then List.filter (passes toLowerCase (normalizeText toLowerCase input) sourceField)
         dictionary
  else [].

(** ** Canonical strings *)

(** Code units of the ASCII range. *)
Definition isASCII (c : N) : Prop := (c < 128)%N.

(** A string in canonical form: fixed by the case mapping [f], free of the
    stripped punctuation, and with no white space other than single spaces
    ([afterSpace]: the code unit before the string is a space). *)
Fixpoint canonicalFrom (f : N -> N) (afterSpace : bool) (s : jsstring) : Prop :=
  match s with
  | [] => True
  | c :: s' =>
      f c = c /\ isPunctuation c = false /\
      if isWhiteSpace c
      then c = space /\ afterSpace = false /\ canonicalFrom f true s'
      else canonicalFrom f false s'
  end.

(** ** Dictionary entries used in examples *)

Definition helloEntry : Translation :=
  {| id := js "greeting-001"; english := js "hello"; klingon := js "nuqneH";
     phonetic := Some (js "NOOK-neh"); partOfSpeech := Some exclamation;
     category := Some (js "greetings"); examples := None |}.

Definition silentEntry : Translation :=
  {| id := js "silence-001"; english := js "hello"; klingon := [];
     phonetic := None; partOfSpeech := None; category := None; examples := None |}.

Definition bracketEntry : Translation :=
  {| id := js "bracket-001"; english := js "hello"; klingon := js "[hello]";
     phonetic := None; partOfSpeech := None; category := None; examples := None |}.

Definition abcxyEntry : Translation :=
  {| id := js "test-001"; english := js "abcxy"; klingon := js "Qapla'";
     phonetic := None; partOfSpeech := None; category := None; examples := None |}.

(** * Further parts of the code and their vocabulary *)

(** ** The edit-distance recurrence *)

(** The value the dynamic programme is meant to leave in cell [(i, j)]: the
    edit distance between the first [i] code units of [str2] and the first
    [j] code units of [str1], by the recurrence of the inner loop. *)
Fixpoint editDistance (str1 str2 : jsstring) (i : nat) : nat -> Z :=
  match i with
  | O => fun j => Z.of_nat j
  | S i' =>
      fix row (j : nat) : Z :=
        match j with
        | O => Z.of_nat (S i')
        | S j' =>
            if streq (charAt str2 i') (charAt str1 j')
            then editDistance str1 str2 i' j'
            else Z.min (editDistance str1 str2 i' j' + 1)
                   (Z.min (row j' + 1) (editDistance str1 str2 i' j + 1))
        end
  end.

(** On the cells of region [D] the matrix holds the values of [V]. *)
Definition Holds (matrix : Matrix) (D : nat -> nat -> Prop) (V : nat -> nat -> Z)
  : Prop :=
  forall r c, D r c -> cell matrix r c = Some (V r c).

(** ** DictionaryMatcher: search and categories *)

(** [searchDictionary]: an absent or empty category counts as the empty
    string. *)
Definition searchDictionary (toLowerCase : jsstring -> jsstring)
    (query : jsstring) (dictionary : list Translation) : list Translation :=
  if negb (truthy (trim query)) then []
  else
    let normalizedQuery := normalizeText toLowerCase query in
    List.filter
      (fun translation =>
         let english := normalizeText toLowerCase (english translation) in
         let klingon := normalizeText toLowerCase (klingon translation) in
         let category :=
           match category translation with
           | Some c => if truthy c then normalizeText toLowerCase c else []
           | None => []
           end in
         includes english normalizedQuery
         || includes klingon normalizedQuery
         || includes category normalizedQuery)
      dictionary.

(** [translation.category === category]: an absent category equals no
    string. *)
Definition hasCategory (c : jsstring) (translation : Translation) : bool :=
  match category translation with
  | Some c' => streq c' c
  | None => false
  end.

Definition getTranslationsByCategory (c : jsstring) (dictionary : list Translation)
  : list Translation :=
  List.filter (hasCategory c) dictionary.

(** [new Set(values)]: the values in the order of their first occurrence. *)
Fixpoint setFrom (values seen : list jsstring) : list jsstring :=
  match values with
  | [] => seen
  | v :: values' =>
      if existsb (streq v) seen then setFrom values' seen
      else setFrom values' (seen ++ [v])
  end.

(** [a < b] on strings: the order of the code units. *)
Fixpoint strLt (a b : jsstring) : bool :=
  match a, b with
  | _, [] => false
  | [], _ :: _ => true
  | x :: a', y :: b' =>
      if (x <? y)%N then true
      else if (y <? x)%N then false
      else strLt a' b'
  end.

(** The comparison [Array.prototype.sort] uses on strings when it is given
    no comparator. *)
Definition defaultCompare (a b : jsstring) : Q :=
  if strLt a b then (-1)%Q else if strLt b a then 1%Q else 0%Q.

(** [dictionary.map(t => t.category).filter(Boolean)] *)
Definition presentCategories (dictionary : list Translation) : list jsstring :=
  omap (fun translation =>
          match category translation with
          | Some c => if truthy c then Some c else None
          | None => None
          end) dictionary.

Definition getCategories (dictionary : list Translation) : list jsstring :=
  sort defaultCompare (setFrom (presentCategories dictionary) []).

(** ** TranslationProcessor: the confidence bands *)

Definition getConfidenceDescription (confidence : Q) : jsstring :=
  if Qgeb confidence (9 # 10) then js "Excellent"
  else if Qgeb confidence (7 # 10) then js "Good"
  else if Qgeb confidence (5 # 10) then js "Fair"
  else if Qgeb confidence (3 # 10) then js "Poor"
  else js "No match".

(** ** LanguageConfig: lookups *)

(** [languageOptions.find((lang) => lang.code === code)]; [None] is
    [undefined]. *)
Definition getLanguageByCode (c : jsstring) : option LanguageOption :=
  List.find (fun lang => streq (codeString (code lang)) c) languageOptions.

(** [language?.name ?? code] *)
Definition getLanguageName (c : jsstring) : jsstring :=
  match getLanguageByCode c with
  | Some language => name language
  | None => c
  end.

(** ** The caller of [translateText] *)

(** The request the [useTranslation] hook builds from its state. *)
Definition hookTranslationOptions (textToTranslate : jsstring)
    (sourceLanguage targetLanguage : LanguageOption) : TranslationOptions :=
  {| text := textToTranslate;
     fromLanguage := match code sourceLanguage with
                     | en => js "english"
                     | tlh => js "klingon"
                     end;
     toLanguage := match code targetLanguage with
                   | en => js "english"
                   | tlh => js "klingon"
                   end |}.

(** ** Vocabulary *)

(** The white space of [s] is made of single spaces: every white-space code
    unit is a space and no two spaces are adjacent. *)
Definition singleSpaced (s : jsstring) : Prop :=
  Forall (fun c => isWhiteSpace c = true -> c = space) s /\
  forall before after, s <> before ++ space :: space :: after.

(** * Properties *)

(** ** Strings *)

Lemma streq_eq (a b : jsstring) : streq a b = true <-> a = b.
Proof.
  revert b; induction a as [|x a IH]; intros [|y b]; simpl; split; try easy.
  - intros [Hxy Hab]%andb_prop. apply N.eqb_eq in Hxy. apply IH in Hab. congruence.
  - intros [= -> ->]. rewrite N.eqb_refl. simpl. now apply IH.
Qed.

Lemma streq_refl (a : jsstring) : streq a a = true.
Proof. now apply streq_eq. Qed.

Lemma streq_nil_r (a : jsstring) : streq a [] = negb (truthy a).
Proof. now destruct a. Qed.

Lemma startsWith_nil (s : jsstring) : startsWith s [] = true.
Proof. now destruct s. Qed.

Lemma includes_nil (s : jsstring) : includes s [] = true.
Proof. destruct s; simpl; reflexivity. Qed.

(** ** Arrays and loops *)

Lemma arrGet_arrSet_eq {A} (a : JSArray A) (i : nat) (v : A) :
  arrGet (arrSet a i v) i = Some v.
Proof.
  unfold arrGet, arrSet. destruct (Nat.ltb_spec i (length a)) as [Hlt|Hge].
  - now rewrite list_lookup_insert_eq.
  - rewrite lookup_app_r by lia.
    rewrite lookup_app_r by (rewrite length_replicate; lia).
    rewrite length_replicate, Nat.sub_diag. reflexivity.
Qed.

Lemma arrGet_arrSet_ne {A} (a : JSArray A) (i j : nat) (v : A) :
  i <> j -> arrGet (arrSet a i v) j = arrGet a j.
Proof.
  intros Hij. unfold arrGet, arrSet.
  destruct (Nat.ltb_spec i (length a)) as [Hlt|Hge].
  - now rewrite list_lookup_insert_ne.
  - destruct (Nat.lt_ge_cases j (length a)) as [Hj|Hj].
    + now rewrite lookup_app_l.
    + rewrite (lookup_ge_None_2 a j) by lia.
      rewrite lookup_app_r by lia.
      destruct (Nat.lt_ge_cases (j - length a) (i - length a)) as [Hk|Hk].
      * rewrite lookup_app_l by (rewrite length_replicate; lia).
        rewrite lookup_replicate_2 by lia. reflexivity.
      * rewrite lookup_app_r by (rewrite length_replicate; lia).
        rewrite length_replicate.
        destruct (j - length a - (i - length a)) as [|k] eqn:Hd; [lia|].
        reflexivity.
Qed.

(** The invariant rule of the counting loop: it runs to completion and the
    invariant holds at the exit index. *)
Lemma forRange_invariant {St} (Inv : nat -> St -> Prop)
    (body : nat -> St -> Completion St) (n i : nat) (s : St) :
  Inv i s ->
  (forall k t, i <= k < i + n -> Inv k t ->
     exists t', body k t = Normal t' /\ Inv (k + 1) t') ->
  exists s', forRange body i n s = Normal s' /\ Inv (i + n) s'.
Proof.
  revert i s. induction n as [|n IH]; intros i s Hinv Hbody; simpl.
  - exists s. rewrite Nat.add_0_r. auto.
  - destruct (Hbody i s ltac:(lia) Hinv) as (t & -> & Ht). simpl.
    destruct (IH (i + 1) t Ht) as (s' & Hrun & Hs').
    + intros k u Hk. apply Hbody. lia.
    + exists s'. split; [exact Hrun|]. now replace (i + S n) with (i + 1 + n) by lia.
Qed.

Lemma forUpTo_invariant {St} (Inv : nat -> St -> Prop)
    (body : nat -> St -> Completion St) (lo hi : nat) (s : St) :
  lo <= hi + 1 ->
  Inv lo s ->
  (forall k t, lo <= k <= hi -> Inv k t ->
     exists t', body k t = Normal t' /\ Inv (k + 1) t') ->
  exists s', forUpTo lo hi body s = Normal s' /\ Inv (hi + 1) s'.
Proof.
  intros Hle Hinv Hbody. unfold forUpTo.
  destruct (forRange_invariant Inv body (hi + 1 - lo) lo s Hinv) as (s' & Hrun & Hs').
  - intros k t Hk. apply Hbody. lia.
  - exists s'. split; [exact Hrun|]. now replace (hi + 1) with (lo + (hi + 1 - lo)) by lia.
Qed.

(** ** The edit-distance matrix *)

Lemma readCell_cell (matrix : Matrix) (i j : nat) :
  readCell matrix i j = defined (cell matrix i j).
Proof. unfold readCell, cell. now destruct (arrGet matrix i). Qed.

Lemma Known_read (matrix : Matrix) (D : nat -> nat -> Prop) (i j : nat) :
  Known matrix D -> D i j ->
  exists v, readCell matrix i j = Normal v /\ (0 <= v <= Z.of_nat (Nat.max i j))%Z.
Proof.
  intros HK Hij. destruct (HK i j Hij) as (v & Hv & Hb).
  exists v. now rewrite readCell_cell, Hv.
Qed.

Lemma Known_weaken (matrix : Matrix) (D D' : nat -> nat -> Prop) :
  (forall r c, D' r c -> D r c) -> Known matrix D -> Known matrix D'.
Proof. intros Hsub HK r c Hrc. apply HK, Hsub, Hrc. Qed.

Lemma cell_arrSet_row (matrix : Matrix) (i : nat) (row : JSArray Z) (r c : nat) :
  cell (arrSet matrix i row) r c =
  if decide (r = i) then arrGet row c else cell matrix r c.
Proof.
  unfold cell. destruct (decide (r = i)) as [->|Hne].
  - now rewrite arrGet_arrSet_eq.
  - now rewrite arrGet_arrSet_ne by congruence.
Qed.

Lemma Known_write (matrix : Matrix) (D : nat -> nat -> Prop) (i j : nat) (v : Z) :
  Known matrix D -> D i 0%nat -> (0 <= v <= Z.of_nat (Nat.max i j))%Z ->
  exists matrix', writeCell matrix i j v = Normal matrix' /\
                  Known matrix' (fun r c => D r c \/ (r = i /\ c = j)).
Proof.
  intros HK Hi0 Hv. destruct (HK i 0%nat Hi0) as (v0 & Hcell & _).
  unfold cell in Hcell. unfold writeCell.
  destruct (arrGet matrix i) as [row|] eqn:Hrow; [|discriminate]. simpl.
  eexists. split; [reflexivity|].
  intros r c Hrc. rewrite cell_arrSet_row.
  destruct (decide (r = i)) as [->|Hne].
  - destruct (decide (c = j)) as [->|Hcj].
    + exists v. now rewrite arrGet_arrSet_eq.
    + rewrite arrGet_arrSet_ne by congruence.
      destruct Hrc as [Hrc|[_ Hrc]]; [|contradiction].
      destruct (HK i c Hrc) as (w & Hw & Hb). exists w.
      unfold cell in Hw. rewrite Hrow in Hw. auto.
  - destruct Hrc as [Hrc|[Hrc _]]; [|contradiction]. apply HK, Hrc.
Qed.

Lemma initRows_Known (len2 : nat) :
  exists matrix, initRows len2 [] = Normal matrix /\
                 Known matrix (fun r c => r <= len2 /\ c = 0%nat).
Proof.
  unfold initRows.
  destruct (forUpTo_invariant
              (fun i m => Known m (fun r c => r < i /\ c = 0%nat))
              (fun i m => mret (arrSet m i [Some (Z.of_nat i)])) 0 len2 [])
    as (matrix & Hrun & HK).
  - lia.
  - intros r c [Hr _]. lia.
  - intros k m _ HK. eexists. split; [reflexivity|].
    intros r c [Hr ->]. rewrite cell_arrSet_row.
    destruct (decide (r = k)) as [->|Hne].
    + exists (Z.of_nat k). split; [reflexivity|lia].
    + apply HK. lia.
  - exists matrix. split; [exact Hrun|].
    eapply Known_weaken; [|exact HK]. simpl. intros r c [Hr ->]. lia.
Qed.

Lemma initFirstRow_Known (len1 len2 : nat) (matrix : Matrix) :
  Known matrix (fun r c => r <= len2 /\ c = 0%nat) ->
  exists matrix', initFirstRow len1 matrix = Normal matrix' /\
    Known matrix' (fun r c => r <= len2 /\ c <= len1 /\ (c = 0%nat \/ r < 1)).
Proof.
  intros HK0. unfold initFirstRow.
  destruct (forUpTo_invariant
              (fun j m => Known m (fun r c => (r <= len2 /\ c = 0%nat) \/
                                              (r = 0%nat /\ c < j)))
              (fun j m => writeCell m 0 j (Z.of_nat j)) 0 len1 matrix)
    as (matrix' & Hrun & HK).
  - lia.
  - eapply Known_weaken; [|exact HK0]. simpl. intros r c [H|[_ H]]; [exact H|lia].
  - intros k m _ HKm.
    destruct (Known_write m _ 0 k (Z.of_nat k) HKm) as (m' & Hw & HKm').
    + left. lia.
    + lia.
    + exists m'. split; [exact Hw|].
      eapply Known_weaken; [|exact HKm']. simpl.
      intros r c [H|[-> Hc]]; [now left; left|].
      destruct (decide (c = k)) as [->|Hne]; [now right|left; right; lia].
  - exists matrix'. split; [exact Hrun|].
    eapply Known_weaken; [|exact HK]. simpl.
    intros r c (Hr & Hc & [->|Hr1]); [left; lia|right; lia].
Qed.

Lemma fillCell_Known (str1 str2 : jsstring) (len1 len2 i j : nat) (matrix : Matrix) :
  1 <= i <= len2 -> 1 <= j <= len1 ->
  Known matrix (filledUpTo len1 len2 i j) ->
  exists matrix', fillCell str1 str2 i j matrix = Normal matrix' /\
                  Known matrix' (filledUpTo len1 len2 i (j + 1)).
Proof.
  intros Hi Hj HK. unfold fillCell.
  destruct (Known_read matrix _ (i - 1) (j - 1) HK) as (sub & -> & Hsub);
    [unfold filledUpTo; lia|].
  destruct (Known_read matrix _ i (j - 1) HK) as (ins & Hins & Hinsb);
    [unfold filledUpTo; lia|].
  destruct (Known_read matrix _ (i - 1) j HK) as (del & Hdel & Hdelb);
    [unfold filledUpTo; lia|].
  assert (Hnext : forall v, (0 <= v <= Z.of_nat (Nat.max i j))%Z ->
            exists matrix', writeCell matrix i j v = Normal matrix' /\
                            Known matrix' (filledUpTo len1 len2 i (j + 1))).
  { intros v Hv.
    destruct (Known_write matrix _ i j v HK) as (m' & Hw & HK');
      [unfold filledUpTo; lia|exact Hv|].
    exists m'. split; [exact Hw|].
    eapply Known_weaken; [|exact HK']. unfold filledUpTo. simpl.
    intros r c (Hr & Hc & H).
    destruct (decide (r = i /\ c = j)) as [Heq|Hne]; [now right|left; lia]. }
  destruct (streq _ _); simpl.
  - apply Hnext. lia.
  - rewrite Hins. simpl. rewrite Hdel. simpl. apply Hnext. lia.
Qed.

Lemma levenshteinMatrix_Known (str1 str2 : jsstring) :
  exists matrix, levenshteinMatrix str1 str2 = Normal matrix /\
    Known matrix (fun r c => r <= length str2 /\ c <= length str1).
Proof.
  unfold levenshteinMatrix.
  set (len1 := length str1). set (len2 := length str2).
  destruct (initRows_Known len2) as (m0 & -> & HK0). simpl.
  destruct (initFirstRow_Known len1 len2 m0 HK0) as (m1 & -> & HK1). simpl.
  destruct (forUpTo_invariant
              (fun i m => Known m (filledUpTo len1 len2 i 0))
              (fun i m => forUpTo 1 len1 (fun j m' => fillCell str1 str2 i j m') m)
              1 len2 m1)
    as (m2 & Hrun & HK2).
  - lia.
  - eapply Known_weaken; [|exact HK1]. unfold filledUpTo. simpl. intros r c H. lia.
  - intros i m Hi HKi.
    destruct (forUpTo_invariant
                (fun j m' => Known m' (filledUpTo len1 len2 i j))
                (fun j m' => fillCell str1 str2 i j m') 1 len1 m)
      as (m' & Hinner & HK').
    + lia.
    + eapply Known_weaken; [|exact HKi]. unfold filledUpTo. intros r c H. lia.
    + intros j t Hj HKt. now apply fillCell_Known.
    + exists m'. split; [exact Hinner|].
      eapply Known_weaken; [|exact HK']. unfold filledUpTo. intros r c H. lia.
  - exists m2. split; [exact Hrun|].
    eapply Known_weaken; [|exact HK2]. unfold filledUpTo. simpl. intros r c H. lia.
Qed.

(** ** SimilarityCalculator: totality and range *)

Lemma Qgtb_lt (x y : Q) : Qgtb x y = true <-> (y < x)%Q.
Proof.
  unfold Qgtb. rewrite negb_true_iff. split.
  - intros H. apply Qnot_le_lt. intros Hle. apply Qle_bool_iff in Hle. congruence.
  - intros H. destruct (Qle_bool x y) eqn:E; [|reflexivity].
    apply Qle_bool_iff in E. exfalso. exact (Qlt_not_le _ _ H E).
Qed.

Lemma Qgtb_le (x y : Q) : Qgtb x y = false <-> (x <= y)%Q.
Proof.
  unfold Qgtb. rewrite negb_false_iff. apply Qle_bool_iff.
Qed.

Lemma distance_to_similarity (d : Z) (m : nat) :
  (0 <= d <= Z.of_nat m)%Z -> (0 < m)%nat ->
  (0 <= 1 - inject_Z d / inject_Z (Z.of_nat m) <= 1)%Q.
Proof.
  intros Hd Hm.
  assert (HM : (0 < inject_Z (Z.of_nat m))%Q).
  { replace 0%Q with (inject_Z 0) by reflexivity. rewrite <- Zlt_Qlt. lia. }
  assert (H0 : (0 <= inject_Z d / inject_Z (Z.of_nat m))%Q).
  { apply Qle_shift_div_l; [exact HM|]. rewrite Qmult_0_l.
    replace 0%Q with (inject_Z 0) by reflexivity. rewrite <- Zle_Qle. lia. }
  assert (H1 : (inject_Z d / inject_Z (Z.of_nat m) <= 1)%Q).
  { apply Qle_shift_div_r; [exact HM|]. rewrite Qmult_1_l.
    rewrite <- Zle_Qle. lia. }
  split; lra.
Qed.

(** The distance the three loops leave in the last cell. *)
Lemma levenshtein_distance_bounded (str1 str2 : jsstring) :
  exists matrix distance,
    levenshteinMatrix str1 str2 = Normal matrix /\
    readCell matrix (length str2) (length str1) = Normal distance /\
    (0 <= distance <= Z.of_nat (Nat.max (length str1) (length str2)))%Z.
Proof.
  destruct (levenshteinMatrix_Known str1 str2) as (matrix & Hrun & HK).
  destruct (Known_read matrix _ (length str2) (length str1) HK)
    as (d & Hd & Hb); [simpl; lia|].
  exists matrix, d. repeat split; auto; lia.
Qed.

(** [calculateSimilarity] returns, and returns a score between 0 and 1. *)
Lemma calculateSimilarity_returns (str1 str2 : jsstring) :
  exists score, calculateSimilarity str1 str2 = Normal score /\
                (0 <= score <= 1)%Q.
Proof.
  unfold calculateSimilarity.
  destruct (length str1 =? 0)%nat eqn:E1, (length str2 =? 0)%nat eqn:E2; simpl.
  - exists 1%Q. split; [reflexivity|lra].
  - exists 0%Q. split; [reflexivity|lra].
  - exists 0%Q. split; [reflexivity|lra].
  - apply Nat.eqb_neq in E1, E2.
    destruct (levenshtein_distance_bounded str1 str2) as (matrix & d & -> & Hd & Hb).
    simpl. rewrite Hd. simpl.
    eexists. split; [reflexivity|].
    apply distance_to_similarity; lia.
Qed.

(** ** findMostSimilar *)

Lemma scoreOf_impl (target c : jsstring) (P P' : Q -> Prop) :
  (forall q, P q -> P' q) -> scoreOf target c P -> scoreOf target c P'.
Proof. intros HP (q & Hq & HPq). exists q. auto. Qed.

Lemma scanCandidates_scanned (target : jsstring) (rest seen : list jsstring)
    (maxSimilarity : Q) (mostSimilar : option jsstring) :
  scanned target seen maxSimilarity mostSimilar ->
  exists result maxSimilarity',
    scanCandidates target rest maxSimilarity mostSimilar = Normal result /\
    scanned target (seen ++ rest) maxSimilarity' result.
Proof.
  revert seen maxSimilarity mostSimilar.
  induction rest as [|c rest IH]; intros seen maxSim most Hseen; simpl.
  - exists most, maxSim. now rewrite app_nil_r.
  - destruct (calculateSimilarity_returns target c) as (q & Hq & Hq0 & Hq1).
    rewrite Hq. simpl.
    replace (seen ++ c :: rest) with ((seen ++ [c]) ++ rest)
      by now rewrite <- app_assoc.
    destruct (Qgtb q maxSim) eqn:Hcmp; apply IH.
    + apply Qgtb_lt in Hcmp. exists seen, []. repeat split; auto.
      * destruct most as [best|]; simpl in Hseen; [|lra].
        destruct Hseen as (? & ? & ? & ? & ? & ? & ?). lra.
      * destruct most as [best|]; simpl in Hseen.
        -- destruct Hseen as (before & after & -> & Hbest & Hpos & Hb & Ha).
           apply Forall_app. split; [|constructor].
           ++ eapply List.Forall_impl; [|exact Hb]. intros x.
              apply scoreOf_impl. intros; lra.
           ++ exists maxSim. split; [exact Hbest|lra].
           ++ eapply List.Forall_impl; [|exact Ha]. intros x.
              apply scoreOf_impl. intros; lra.
        -- destruct Hseen as (Hzero & Hall).
           eapply List.Forall_impl; [|exact Hall]. intros x.
           apply scoreOf_impl. intros; lra.
    + apply Qgtb_le in Hcmp. destruct most as [best|]; simpl in Hseen |- *.
      * destruct Hseen as (before & after & -> & Hbest & Hpos & Hb & Ha).
        exists before, (after ++ [c]). rewrite <- app_assoc. simpl.
        repeat split; auto.
        apply Forall_app. split; [exact Ha|].
        constructor; [|constructor]. exists q. auto.
      * destruct Hseen as (Hzero & Hall). split; [exact Hzero|].
        apply Forall_app. split; [exact Hall|].
        constructor; [|constructor]. exists q. split; [exact Hq|lra].
Qed.

(** ** Sorting by a key, highest first *)

Section SortByKey.

Context {A : Type} (key : A -> Q).

Let byKey : A -> A -> Q := fun a b => (key b - key a)%Q.

Lemma insertSorted_split (x : A) (l : list A) :
  exists l1 l2, l = l1 ++ l2 /\ insertSorted byKey x l = l1 ++ x :: l2 /\
                Forall (fun y => key x < key y)%Q l1.
Proof.
  induction l as [|y l IH]; simpl.
  - exists [], []. auto.
  - destruct (Qgtb (byKey x y) 0) eqn:Hcmp.
    + destruct IH as (l1 & l2 & -> & -> & Hl1).
      exists (y :: l1), l2. repeat split; auto.
      constructor; [|exact Hl1]. apply Qgtb_lt in Hcmp. unfold byKey in Hcmp. lra.
    + exists [], (y :: l). auto.
Qed.

Lemma insertSorted_Permutation (x : A) (l : list A) :
  Permutation (insertSorted byKey x l) (x :: l).
Proof.
  destruct (insertSorted_split x l) as (l1 & l2 & -> & -> & _).
  symmetry. apply Permutation_middle.
Qed.

Lemma sort_Permutation (l : list A) : Permutation (sort byKey l) l.
Proof.
  induction l as [|x l IH]; simpl; [constructor|].
  rewrite insertSorted_Permutation. now constructor.
Qed.

Lemma insertSorted_sorted (x : A) (l : list A) :
  StronglySorted (Above key) l -> StronglySorted (Above key) (insertSorted byKey x l).
Proof.
  induction 1 as [|y l Hsorted IH Hy]; simpl.
  - repeat constructor.
  - destruct (Qgtb (byKey x y) 0) eqn:Hcmp.
    + apply Qgtb_lt in Hcmp. unfold byKey in Hcmp.
      constructor; [exact IH|].
      rewrite insertSorted_Permutation. constructor; [|exact Hy].
      unfold Above. lra.
    + apply Qgtb_le in Hcmp. unfold byKey in Hcmp.
      constructor; [now constructor|].
      constructor; [unfold Above; lra|].
      eapply List.Forall_impl; [|exact Hy]. unfold Above. intros z Hz. lra.
Qed.

Lemma sort_sorted (l : list A) : StronglySorted (Above key) (sort byKey l).
Proof.
  induction l as [|x l IH]; simpl; [constructor|].
  now apply insertSorted_sorted.
Qed.

(** Stability: the elements carrying any one key keep their order. *)
Lemma sort_stable (q : Q) (l : list A) :
  List.filter (fun x => Qeq_bool (key x) q) (sort byKey l) =
  List.filter (fun x => Qeq_bool (key x) q) l.
Proof.
  induction l as [|x l IH]; simpl; [reflexivity|].
  destruct (insertSorted_split x (sort byKey l)) as (l1 & l2 & Hl & -> & Hl1).
  rewrite <- IH, Hl, !List.filter_app. simpl.
  destruct (Qeq_bool (key x) q) eqn:Hx; [|reflexivity].
  apply Qeq_bool_iff in Hx.
  replace (List.filter (fun y => Qeq_bool (key y) q) l1) with (@nil A); [reflexivity|].
  symmetry. clear Hl. induction Hl1 as [|y l1 Hy _ IHl1]; simpl; [reflexivity|].
  destruct (Qeq_bool (key y) q) eqn:Hyq; [|exact IHl1].
  apply Qeq_bool_iff in Hyq. lra.
Qed.

End SortByKey.

(** ** DictionaryMatcher *)

Section MatcherProperties.

Variable toLowerCase : jsstring -> jsstring.

Lemma calculateMatchSimilarity_range (normalizedInput sourceText : jsstring) :
  exists q, calculateMatchSimilarity toLowerCase normalizedInput sourceText = Normal q /\
            (0 <= q <= 1)%Q.
Proof.
  unfold calculateMatchSimilarity.
  destruct (isExactMatch _ _ _); [exists 1%Q; split; [reflexivity|lra]|].
  destruct (containsText _ _ _); [exists (9 # 10)%Q; split; [reflexivity|lra]|].
  apply calculateSimilarity_returns.
Qed.

Lemma collectMatches_spec (normalizedInput : jsstring) (sourceField : FieldName)
    (dictionary : list Translation) (matches : list MatchResult) :
  exists found,
    collectMatches toLowerCase normalizedInput sourceField dictionary matches
      = Normal (matches ++ found) /\
    List.map translation found =
      List.filter (passes toLowerCase normalizedInput sourceField) dictionary /\
    Forall (fun m => calculateMatchSimilarity toLowerCase normalizedInput
                       (getField sourceField (translation m)) = Normal (similarity m))
           found.
Proof.
  revert matches. induction dictionary as [|e rest IH]; intros matches; simpl.
  - exists []. rewrite app_nil_r. auto.
  - unfold passes at 1.
    destruct (truthy (getField sourceField e)); simpl; [|apply IH].
    destruct (calculateMatchSimilarity_range normalizedInput (getField sourceField e))
      as (q & Hq & _).
    rewrite Hq. simpl. destruct (Qgtb q (6 # 10)); [|apply IH].
    destruct (IH (matches ++ [{| translation := e; similarity := q |}]))
      as (found & -> & Hmap & Hall).
    exists ({| translation := e; similarity := q |} :: found).
    rewrite <- app_assoc. simpl. rewrite Hmap. repeat split; auto.
Qed.

Lemma StronglySorted_map {A B} (R : A -> A -> Prop) (R' : B -> B -> Prop)
    (P : A -> Prop) (g : A -> B) (l : list A) :
  (forall a b, P a -> P b -> R a b -> R' (g a) (g b)) ->
  Forall P l -> StronglySorted R l -> StronglySorted R' (List.map g l).
Proof.
  intros Hg HP Hs. induction Hs as [|a l Hs IH Ha]; simpl; [constructor|].
  inversion_clear HP as [|? ? HPa HPl].
  constructor; [now apply IH|].
  rewrite List.Forall_forall in Ha, HPl. apply List.Forall_forall.
  intros y (x & <- & Hx)%in_map_iff. apply Hg; auto.
Qed.

(** What [findMatches] returns: the kept entries, rearranged highest tier
    similarity first without disturbing entries of equal similarity. *)
Lemma findMatches_spec (input : jsstring) (dictionary : list Translation)
    (sourceField : FieldName) :
  exists result,
    findMatches toLowerCase input dictionary sourceField = Normal result /\
    Permutation result (keptEntries toLowerCase input dictionary sourceField) /\
    StronglySorted
      (rankedAbove toLowerCase (normalizeText toLowerCase input) sourceField) result /\
    forall q,
      List.filter (hasSimilarity toLowerCase (normalizeText toLowerCase input) sourceField q)
        result =
      List.filter (hasSimilarity toLowerCase (normalizeText toLowerCase input) sourceField q)
        (keptEntries toLowerCase input dictionary sourceField).
Proof.
  unfold findMatches, keptEntries.
  destruct (truthy (trim input)); simpl.
  2:{ exists []. repeat split; constructor. }
  set (ni := normalizeText toLowerCase input).
  destruct (collectMatches_spec ni sourceField dictionary [])
    as (found & -> & Hmap & Hall). simpl.
  eexists. split; [reflexivity|].
  assert (Hperm := sort_Permutation similarity found).
  assert (Hall' : Forall (fun m => calculateMatchSimilarity toLowerCase ni
                     (getField sourceField (translation m)) = Normal (similarity m))
                    (sort (fun a b => similarity b - similarity a)%Q found)).
  { rewrite List.Forall_forall in Hall |- *. intros m Hm. apply Hall.
    eapply Permutation_in; [exact Hperm|exact Hm]. }
  rewrite <- Hmap. split; [|split].
  - now apply Permutation_map.
  - eapply StronglySorted_map; [|exact Hall'|apply (sort_sorted similarity)].
    intros a b Ha Hb Hab. exists (similarity a), (similarity b). auto.
  - intros q.
    assert (Hkey : forall l,
              Forall (fun m => calculateMatchSimilarity toLowerCase ni
                         (getField sourceField (translation m)) = Normal (similarity m)) l ->
              List.filter (hasSimilarity toLowerCase ni sourceField q) (List.map translation l) =
              List.map translation
                (List.filter (fun m => Qeq_bool (similarity m) q) l)).
    { intros l. induction 1 as [|m l Hm _ IHl]; simpl; [reflexivity|].
      unfold hasSimilarity at 1. rewrite Hm.
      destruct (Qeq_bool (similarity m) q); simpl; now rewrite IHl. }
    rewrite !Hkey by assumption.
    f_equal. apply (sort_stable similarity).
Qed.

End MatcherProperties.

(** ** TextNormalizer *)

Lemma trimStart_suffix (s : jsstring) : exists w, s = w ++ trimStart s.
Proof.
  induction s as [|c s (w & IH)]; simpl.
  - now exists [].
  - destruct (isWhiteSpace c).
    + exists (c :: w). simpl. now f_equal.
    + now exists [].
Qed.

Lemma trimEnd_prefix (s : jsstring) : exists w, s = trimEnd s ++ w.
Proof.
  unfold trimEnd. destruct (trimStart_suffix (rev s)) as (w & Hw).
  exists (rev w). rewrite <- rev_app_distr, <- Hw. now rewrite rev_involutive.
Qed.

Lemma trim_Forall (P : N -> Prop) (s : jsstring) : Forall P s -> Forall P (trim s).
Proof.
  intros H. unfold trim.
  destruct (trimStart_suffix s) as (w1 & H1).
  destruct (trimEnd_prefix (trimStart s)) as (w2 & H2).
  rewrite H1, H2 in H. apply Forall_app in H as [_ H].
  now apply Forall_app in H as [H _].
Qed.

Lemma lowerUnit_idempotent (c : N) : lowerUnit (lowerUnit c) = lowerUnit c.
Proof.
  unfold lowerUnit.
  destruct ((65 <=? c) && (c <=? 90))%N eqn:E; [|now rewrite E].
  apply andb_prop in E as [E1%N.leb_le E2%N.leb_le].
  replace ((65 <=? c + 32) && (c + 32 <=? 90))%N with false; [reflexivity|].
  symmetry. apply andb_false_iff. right. apply N.leb_gt. lia.
Qed.

Section NormalizerProperties.

(** A case mapping that acts code unit by code unit. *)
Variable f : N -> N.
Hypothesis f_idempotent : forall c, f (f c) = f c.
Hypothesis f_space : f space = space.

Lemma canonicalFrom_weaken (b : bool) (s : jsstring) :
  canonicalFrom f b s -> canonicalFrom f false s.
Proof.
  destruct s as [|c s]; simpl; [auto|].
  intros (Hf & Hp & H). repeat split; auto.
  destruct (isWhiteSpace c); [|exact H]. destruct H as (? & ? & ?). auto.
Qed.

Lemma canonicalFrom_collapse (b : bool) (s : jsstring) :
  Forall (fun c => f c = c /\ isPunctuation c = false) s ->
  canonicalFrom f b (collapseFrom b s).
Proof.
  intros H. revert b. induction H as [|c s [Hf Hp] _ IH]; intros b; simpl; [exact I|].
  destruct (isWhiteSpace c) eqn:Hws.
  - destruct b; [apply IH|]. simpl. repeat split; auto.
  - simpl. rewrite Hws. repeat split; auto.
Qed.

Lemma canonicalFrom_fixed (b : bool) (s : jsstring) :
  canonicalFrom f b s ->
  List.map f s = s /\ removePunctuation s = s /\ collapseFrom b s = s.
Proof.
  revert b. induction s as [|c s IH]; intros b; simpl; [auto|].
  intros (Hf & Hp & H). rewrite Hf, Hp. simpl.
  destruct (isWhiteSpace c).
  - destruct H as (-> & -> & H). destruct (IH true H) as (-> & -> & ->). auto.
  - destruct (IH false H) as (-> & -> & ->). auto.
Qed.

Lemma canonicalFrom_trimStart (b : bool) (s : jsstring) :
  canonicalFrom f b s -> canonicalFrom f false (trimStart s).
Proof.
  revert b. induction s as [|c s IH]; intros b; [auto|].
  intros H. simpl trimStart. destruct (isWhiteSpace c) eqn:Hws.
  - simpl in H. rewrite Hws in H. destruct H as (_ & _ & _ & _ & H). now apply IH in H.
  - now apply canonicalFrom_weaken in H.
Qed.

Lemma canonicalFrom_prefix (b : bool) (s1 s2 : jsstring) :
  canonicalFrom f b (s1 ++ s2) -> canonicalFrom f b s1.
Proof.
  revert b. induction s1 as [|c s1 IH]; intros b; simpl; [auto|].
  intros (Hf & Hp & H). repeat split; auto.
  destruct (isWhiteSpace c).
  - destruct H as (? & ? & H). repeat split; auto.
  - auto.
Qed.

Lemma canonicalFrom_trim (s : jsstring) :
  canonicalFrom f false s -> canonicalFrom f false (trim s).
Proof.
  intros H. apply canonicalFrom_trimStart in H. unfold trim.
  destruct (trimEnd_prefix (trimStart s)) as (w & Hw).
  rewrite Hw in H. now apply canonicalFrom_prefix in H.
Qed.

Lemma normalizeText_canonical (toLowerCase : jsstring -> jsstring) (s : jsstring) :
  toLowerCase s = List.map f s ->
  canonicalFrom f false (normalizeText toLowerCase s).
Proof.
  intros Hlower.
  unfold normalizeText, collapseWhitespace. apply canonicalFrom_collapse.
  unfold removePunctuation. rewrite Hlower.
  apply List.Forall_forall. intros c [Hin Hp]%filter_In.
  split; [|now apply negb_true_iff].
  assert (Hall : Forall (fun c => f c = c) (trim (List.map f s))).
  { apply trim_Forall. apply List.Forall_forall.
    intros x (y & <- & _)%in_map_iff. apply f_idempotent. }
  rewrite List.Forall_forall in Hall. now apply Hall.
Qed.

End NormalizerProperties.

Lemma lowerUnit_ASCII (c : N) : isASCII c -> isASCII (lowerUnit c).
Proof.
  unfold isASCII, lowerUnit. intros Hc.
  destruct ((65 <=? c) && (c <=? 90))%N eqn:E; [|exact Hc].
  apply andb_prop in E as [_ E%N.leb_le]. lia.
Qed.

Lemma collapseFrom_Forall (P : N -> Prop) (b : bool) (s : jsstring) :
  P space -> Forall P s -> Forall P (collapseFrom b s).
Proof.
  intros Hsp H. revert b. induction H as [|c s Hc _ IH]; intros b; simpl; [constructor|].
  destruct (isWhiteSpace c); [destruct b|]; auto.
Qed.

(** Normalising ASCII text gives ASCII text. *)
Lemma normalizeText_ASCII (toLowerCase : jsstring -> jsstring) (s : jsstring) :
  toLowerCase s = toLowerCaseASCII s ->
  Forall isASCII s -> Forall isASCII (normalizeText toLowerCase s).
Proof.
  intros Hlower Hs. unfold normalizeText, collapseWhitespace.
  apply collapseFrom_Forall; [reflexivity|].
  apply List.Forall_forall. intros c [Hin _]%filter_In. revert c Hin.
  apply List.Forall_forall, trim_Forall. rewrite Hlower.
  apply List.Forall_forall. intros c (x & <- & Hx)%in_map_iff.
  rewrite List.Forall_forall in Hs. apply lowerUnit_ASCII. auto.
Qed.

(** ** TranslationProcessor and translationService *)

Lemma bracketed_not_empty (input : jsstring) : bracketed input <> [].
Proof. discriminate. Qed.

Lemma keptEntries_In (toLowerCase : jsstring -> jsstring) (input : jsstring)
    (dictionary : list Translation) (sourceField : FieldName) (e : Translation) :
  In e (keptEntries toLowerCase input dictionary sourceField) ->
  In e dictionary /\
  passes toLowerCase (normalizeText toLowerCase input) sourceField e = true.
Proof.
  unfold keptEntries. destruct (truthy (trim input)); [|contradiction].
  apply filter_In.
Qed.

(** The three shapes a result of [processTranslation] takes on input that
    is not empty. *)
Lemma processTranslation_cases (toLowerCase : jsstring -> jsstring)
    (inputText : jsstring) (matches : list Translation)
    (sourceLanguage targetLanguage : LanguageOption) :
  isEmptyText toLowerCase inputText = false ->
  exists r,
    processTranslation toLowerCase inputText matches sourceLanguage targetLanguage = Normal r /\
    input r = inputText /\
    (0 <= confidence r <= 1)%Q /\ length (suggestions r) <= 3 /\
    ((matches = [] /\ output r = bracketed inputText /\
      confidence r = 0%Q /\ suggestions r = []) \/
     (exists best, head matches = Some best /\
                   (output r = klingon best \/ output r = english best))).
Proof.
  intros Hne. unfold processTranslation. rewrite Hne.
  destruct matches as [|best rest]; simpl.
  - eexists. split; [reflexivity|]. simpl. repeat split; try lra; auto.
  - destruct (calculateSimilarity_returns
                (normalizeText toLowerCase inputText)
                (normalizeText toLowerCase
                   (getField match code sourceLanguage with
                             | en => englishField | tlh => klingonField end best)))
      as (q & -> & Hq). simpl.
    eexists. split; [reflexivity|]. simpl. repeat split; try tauto.
    + unfold slice. simpl. rewrite length_take. lia.
    + right. exists best. split; [reflexivity|].
      destruct (code sourceLanguage); simpl; auto.
Qed.

(** Every run of [translateText] ends normally, in one of three shapes. *)
Lemma translateText_cases (toLowerCase : jsstring -> jsstring)
    (dictionary : list Translation) (options : TranslationOptions) :
  exists r,
    translateText toLowerCase dictionary options = Normal r /\
    input r = text options /\
    (0 <= confidence r <= 1)%Q /\ length (suggestions r) <= 3 /\
    ((output r = [] /\ confidence r = 0%Q /\ suggestions r = []) \/
     (output r = bracketed (text options) /\ confidence r = 0%Q /\ suggestions r = []) \/
     (exists e, In e dictionary /\ (output r = klingon e \/ output r = english e))).
Proof.
  unfold translateText.
  destruct (isEmptyText toLowerCase (text options)) eqn:Hempty.
  { eexists. split; [reflexivity|]. simpl. repeat split; try lra; auto. }
  destruct (negb (isLanguageSupported (fromLanguage options))
            || negb (isLanguageSupported (toLanguage options))).
  { eexists. split; [reflexivity|]. simpl. repeat split; try lra; auto. }
  match goal with
  | |- context [findMatches toLowerCase ?i ?d ?fld] =>
      destruct (findMatches_spec toLowerCase i d fld) as (matches & -> & Hperm & _)
  end. simpl.
  match goal with
  | |- context [processTranslation toLowerCase ?i ?m ?sl ?tl] =>
      destruct (processTranslation_cases toLowerCase i m sl tl Hempty)
        as (r & -> & Hin & Hconf & Hsug & Hshape)
  end.
  exists r. repeat split; try tauto; auto.
  destruct Hshape as [(_ & Ho & Hc & Hs)|(best & Hbest & Ho)]; [auto|].
  right. right. exists best. split; [|exact Ho].
  destruct matches as [|b rest]; [discriminate|]. injection Hbest as ->.
  eapply keptEntries_In, Permutation_in; [exact Hperm|]. now left.
Qed.

(** * The claims of the specification *)

(** ** C1: the exact-match scenario *)

(** C1 (code defect).  The specification's scenario calls [translateText] with
    the language names "english" and "klingon", as the function's own
    documentation and the [useTranslation] hook do.  [isLanguageSupported]
    knows the codes "en" and "tlh" only, so the call stops at the validation
    and returns the error result: the output is the empty string and the
    confidence [0], not "nuqneH" and [1.0]. *)
Theorem translateText_hello_english_klingon :
  translateText toLowerCaseASCII [helloEntry]
    {| text := js "Hello!"; fromLanguage := js "english"; toLanguage := js "klingon" |}
  = Normal {| input := js "Hello!"; output := []; result_phonetic := None;
              confidence := 0; suggestions := [] |}.
Proof. vm_compute. reflexivity. Qed.

(** The same holds whatever the dictionary, the text and the case mapping. *)
Lemma translateText_language_names_rejected (toLowerCase : jsstring -> jsstring)
    (dictionary : list Translation) (t target : jsstring) :
  translateText toLowerCase dictionary
    {| text := t; fromLanguage := js "english"; toLanguage := target |}
  = Normal (createErrorResult (js "Unsupported language pair") t).
Proof.
  unfold translateText. simpl.
  destruct (isEmptyText toLowerCase t); reflexivity.
Qed.

(** With the language codes the scenario gives what the specification
    expects. *)
Lemma translateText_hello_en_tlh :
  exists r,
    translateText toLowerCaseASCII [helloEntry]
      {| text := js "Hello!"; fromLanguage := js "en"; toLanguage := js "tlh" |}
    = Normal r /\
    output r = js "nuqneH" /\ (confidence r == 1)%Q.
Proof. eexists. split; [vm_compute; reflexivity|]. split; reflexivity. Qed.

(** With the codes, the Klingon-to-English direction is never taken: the
    searched field is tested against "klingon", which no supported code is. *)
Lemma translateText_tlh_en_searches_english :
  translateText toLowerCaseASCII [helloEntry]
    {| text := js "nuqneH"; fromLanguage := js "tlh"; toLanguage := js "en" |}
  = Normal (createUnknownResult (js "nuqneH")).
Proof. vm_compute. reflexivity. Qed.

(** ** C2: the invariant of results *)

(** C2, counterexample.  An entry whose Klingon text is empty matches the
    input "hello" exactly: the output is the empty string and the confidence
    is 1, not 0. *)
Lemma translateText_empty_output_full_confidence :
  exists r,
    translateText toLowerCaseASCII [silentEntry]
      {| text := js "hello"; fromLanguage := js "en"; toLanguage := js "tlh" |}
    = Normal r /\
    output r = [] /\ ~ (confidence r == 0)%Q.
Proof.
  eexists. split; [vm_compute; reflexivity|]. split; [reflexivity|].
  simpl. intros H. discriminate H.
Qed.

(** The bracket-wrapped form of the input can be a dictionary text too. *)
Lemma translateText_bracketed_output_full_confidence :
  exists r,
    translateText toLowerCaseASCII [bracketEntry]
      {| text := js "hello"; fromLanguage := js "en"; toLanguage := js "tlh" |}
    = Normal r /\
    output r = bracketed (js "hello") /\ ~ (confidence r == 0)%Q.
Proof.
  eexists. split; [vm_compute; reflexivity|]. split; [reflexivity|].
  simpl. intros H. discriminate H.
Qed.

(** C2 (amended).  Every call of [translateText] returns a result with
    [0 <= confidence <= 1] and at most three suggestions.  If no dictionary
    entry has an empty English or Klingon text, an empty output comes with
    confidence [0]; if no dictionary text is the bracket-wrapped input, the
    bracket-wrapped output comes with confidence [0] and no suggestions. *)
Theorem translateText_result_invariant (toLowerCase : jsstring -> jsstring)
    (dictionary : list Translation) (options : TranslationOptions) :
  exists r,
    translateText toLowerCase dictionary options = Normal r /\
    (0 <= confidence r <= 1)%Q /\
    length (suggestions r) <= 3 /\
    ((forall e, In e dictionary -> english e <> [] /\ klingon e <> []) ->
     output r = [] -> (confidence r == 0)%Q) /\
    ((forall e, In e dictionary ->
        english e <> bracketed (text options) /\
        klingon e <> bracketed (text options)) ->
     output r = bracketed (text options) ->
     (confidence r == 0)%Q /\ suggestions r = []).
Proof.
  destruct (translateText_cases toLowerCase dictionary options)
    as (r & Hr & _ & Hconf & Hsug & Hshape).
  exists r. split; [exact Hr|]. split; [exact Hconf|]. split; [exact Hsug|]. split.
  - intros Hdict Hout.
    destruct Hshape as [(_ & -> & _)|[(Hb & _)|(e & He & Ho)]]; [reflexivity| |].
    + rewrite Hout in Hb. symmetry in Hb. now apply bracketed_not_empty in Hb.
    + destruct (Hdict e He) as [He1 He2]. rewrite Hout in Ho.
      destruct Ho as [Ho|Ho]; symmetry in Ho; contradiction.
  - intros Hdict Hout.
    destruct Hshape as [(Ho & _)|[(_ & -> & ->)|(e & He & Ho)]].
    + rewrite Hout in Ho. now apply bracketed_not_empty in Ho.
    + split; reflexivity.
    + destruct (Hdict e He) as [He1 He2]. rewrite Hout in Ho.
      destruct Ho as [Ho|Ho]; symmetry in Ho; contradiction.
Qed.

Lemma translateText_result_invariant_witness :
  exists r,
    translateText toLowerCaseASCII [helloEntry]
      {| text := js "xyzzy123"; fromLanguage := js "en"; toLanguage := js "tlh" |}
    = Normal r /\
    output r = bracketed (js "xyzzy123") /\
    (confidence r == 0)%Q /\ suggestions r = [].
Proof.
  destruct (translateText_result_invariant toLowerCaseASCII [helloEntry]
              {| text := js "xyzzy123"; fromLanguage := js "en"; toLanguage := js "tlh" |})
    as (r & Hr & _ & _ & _ & Hbracket).
  exists r. split; [exact Hr|].
  assert (Hout : output r = bracketed (js "xyzzy123")).
  { vm_compute in Hr. injection Hr as <-. reflexivity. }
  split; [exact Hout|]. apply Hbracket; [|exact Hout].
  simpl. intros e [<-|[]]. split; discriminate.
Defined.

(** ** C3: normalising twice *)

(** C3, counterexample.  For "a ." the trailing full stop is removed after
    the trimming, so the normal form "a " keeps a trailing space that a second
    normalisation trims away. *)
Lemma normalizeText_not_idempotent :
  normalizeText toLowerCaseASCII (js "a .") = js "a " /\
  normalizeText toLowerCaseASCII (normalizeText toLowerCaseASCII (js "a .")) = js "a" /\
  normalizeText toLowerCaseASCII (normalizeText toLowerCaseASCII (js "a ."))
    <> normalizeText toLowerCaseASCII (js "a .").
Proof. repeat split; try reflexivity. vm_compute. discriminate. Qed.

(** C3 (amended).  For every ASCII string [s] (on which lower-casing maps
    [A-Z] to [a-z] and keeps every other code unit), normalising a second time
    trims the first normal form and changes nothing else:
    [normalizeText (normalizeText s)] is [normalizeText s] without its leading
    and trailing space.  Normalisation is therefore idempotent on the strings
    whose normal form has no space at either end. *)
Theorem normalizeText_twice (toLowerCase : jsstring -> jsstring) (s : jsstring) :
  (forall t, Forall isASCII t -> toLowerCase t = toLowerCaseASCII t) ->
  Forall isASCII s ->
  normalizeText toLowerCase (normalizeText toLowerCase s)
  = trim (normalizeText toLowerCase s).
Proof.
  intros Hlower Hs.
  assert (Hcanon : canonicalFrom lowerUnit false (normalizeText toLowerCase s)).
  { apply normalizeText_canonical; [exact lowerUnit_idempotent|reflexivity|].
    now apply Hlower. }
  assert (Hascii : Forall isASCII (normalizeText toLowerCase s)).
  { apply normalizeText_ASCII; [now apply Hlower|exact Hs]. }
  set (t := normalizeText toLowerCase s) in *.
  destruct (canonicalFrom_fixed lowerUnit false t Hcanon) as (Hfix & _ & _).
  apply (canonicalFrom_trim lowerUnit) in Hcanon.
  destruct (canonicalFrom_fixed lowerUnit false (trim t) Hcanon)
    as (_ & Hstrip & Hcollapse).
  unfold normalizeText at 1, collapseWhitespace.
  rewrite (Hlower t Hascii). unfold toLowerCaseASCII.
  now rewrite Hfix, Hstrip, Hcollapse.
Qed.

Lemma normalizeText_twice_witness :
  (forall t, Forall isASCII t -> toLowerCaseASCII t = toLowerCaseASCII t) /\
  Forall isASCII (js "Hello .  World!") /\
  normalizeText toLowerCaseASCII (normalizeText toLowerCaseASCII (js "Hello .  World!"))
  = trim (normalizeText toLowerCaseASCII (js "Hello .  World!")).
Proof.
  split; [reflexivity|].
  split; [repeat constructor|].
  apply (normalizeText_twice toLowerCaseASCII (js "Hello .  World!")).
  - reflexivity.
  - repeat constructor.
Defined.

(** Where the normal form has no space at either end, normalisation is
    idempotent. *)
Lemma normalizeText_idempotent_when_trimmed (toLowerCase : jsstring -> jsstring)
    (s : jsstring) :
  (forall t, Forall isASCII t -> toLowerCase t = toLowerCaseASCII t) ->
  Forall isASCII s ->
  trim (normalizeText toLowerCase s) = normalizeText toLowerCase s ->
  normalizeText toLowerCase (normalizeText toLowerCase s) = normalizeText toLowerCase s.
Proof.
  intros Hlower Hs Htrim.
  assert (Hcanon : canonicalFrom lowerUnit false (normalizeText toLowerCase s)).
  { apply normalizeText_canonical; [exact lowerUnit_idempotent|reflexivity|].
    now apply Hlower. }
  assert (Hascii : Forall isASCII (normalizeText toLowerCase s)).
  { apply normalizeText_ASCII; [now apply Hlower|exact Hs]. }
  set (t := normalizeText toLowerCase s) in *.
  destruct (canonicalFrom_fixed lowerUnit false t Hcanon) as (Hfix & Hstrip & Hcollapse).
  unfold normalizeText at 1, collapseWhitespace.
  rewrite (Hlower t Hascii). unfold toLowerCaseASCII.
  now rewrite Hfix, Htrim, Hstrip, Hcollapse.
Qed.

(** ** C4: the most similar candidate *)

(** C4, counterexample.  "xyz" shares nothing with "abc": its similarity is
    [0], which is not greater than the initial [maxSimilarity], and the result
    is [null] although the candidate list is not empty. *)
Lemma findMostSimilar_null_on_nonempty :
  findMostSimilar (js "abc") [js "xyz"] = Normal None /\ [js "xyz"] <> [].
Proof. split; [vm_compute; reflexivity|discriminate]. Qed.

(** C4 (amended).  [findMostSimilar] returns [null] exactly when no candidate
    has a similarity greater than [0] (the empty list included).  Otherwise it
    returns the first candidate, in iteration order, that attains the highest
    similarity: every candidate before it scores strictly less, every
    candidate after it scores at most as much. *)
Theorem findMostSimilar_first_best (target : jsstring) (candidates : list jsstring) :
  exists result,
    findMostSimilar target candidates = Normal result /\
    match result with
    | None =>
        Forall (fun c => scoreOf target c (fun q => q == 0)%Q) candidates
    | Some best =>
        exists before after,
          candidates = before ++ best :: after /\
          scoreOf target best (fun top =>
            (0 < top)%Q /\
            Forall (fun c => scoreOf target c (fun q => q < top)%Q) before /\
            Forall (fun c => scoreOf target c (fun q => q <= top)%Q) after)
    end.
Proof.
  unfold findMostSimilar.
  destruct (scanCandidates_scanned target candidates [] 0%Q None)
    as (result & top & Hrun & Hscan).
  { split; [reflexivity|constructor]. }
  destruct candidates as [|c rest].
  - exists None. split; [reflexivity|constructor].
  - change (length (c :: rest) =? 0)%nat with false. cbv iota.
    exists result. split; [exact Hrun|].
    simpl app in Hscan. destruct result as [best|]; simpl in Hscan.
    + destruct Hscan as (before & after & Heq & Hbest & Hpos & Hb & Ha).
      exists before, after. split; [exact Heq|]. exists top. auto.
    + tauto.
Qed.

(** ** C5: totality *)

(** C5.  [translateText] returns for every text, every pair of language
    strings and every dictionary: the run never ends abruptly.  The result
    carries the input text, and its output is the empty string, the
    bracket-wrapped input, or the text of a dictionary entry. *)
Theorem translateText_total (toLowerCase : jsstring -> jsstring)
    (dictionary : list Translation) (options : TranslationOptions) :
  exists r,
    translateText toLowerCase dictionary options = Normal r /\
    input r = text options /\
    (output r = [] \/
     output r = bracketed (text options) \/
     exists e, In e dictionary /\ (output r = klingon e \/ output r = english e)).
Proof.
  destruct (translateText_cases toLowerCase dictionary options)
    as (r & Hr & Hin & _ & _ & Hshape).
  exists r. split; [exact Hr|]. split; [exact Hin|]. tauto.
Qed.

(** ** C6: the confidence of a match *)

(** C6.  On input that is not empty and a match list that is not empty, the
    confidence of the result is the similarity of the normalised input to the
    normalised source-language field of the first match, recomputed by
    [calculateSimilarity] whatever tier the matcher used for that entry. *)
Theorem processTranslation_confidence (toLowerCase : jsstring -> jsstring)
    (inputText : jsstring) (bestMatch : Translation) (rest : list Translation)
    (sourceLanguage targetLanguage : LanguageOption) :
  isEmptyText toLowerCase inputText = false ->
  exists r,
    processTranslation toLowerCase inputText (bestMatch :: rest)
      sourceLanguage targetLanguage = Normal r /\
    calculateSimilarity
      (normalizeText toLowerCase inputText)
      (normalizeText toLowerCase
         (getField match code sourceLanguage with
                   | en => englishField
                   | tlh => klingonField
                   end bestMatch))
    = Normal (confidence r).
Proof.
  intros Hne. unfold processTranslation. rewrite Hne.
  match goal with
  | |- context [calculateSimilarity ?a ?b] =>
      destruct (calculateSimilarity_returns a b) as (q & Hq & _)
  end.
  rewrite Hq. simpl. eexists. split; reflexivity.
Qed.

Lemma processTranslation_confidence_witness :
  isEmptyText toLowerCaseASCII (js "Helo") = false /\
  exists r,
    processTranslation toLowerCaseASCII (js "Helo") [helloEntry]
      (nth 0 languageOptions (Build_LanguageOption en [] [] ltr))
      (nth 1 languageOptions (Build_LanguageOption en [] [] ltr)) = Normal r /\
    calculateSimilarity (js "helo") (js "hello") = Normal (confidence r).
Proof.
  split; [reflexivity|].
  exact (processTranslation_confidence toLowerCaseASCII (js "Helo") helloEntry []
           (nth 0 languageOptions (Build_LanguageOption en [] [] ltr))
           (nth 1 languageOptions (Build_LanguageOption en [] [] ltr))
           eq_refl).
Defined.

(** ** C7: the threshold *)

(** Whatever [findMatches] returns was assigned a similarity above [0.6]. *)
Lemma findMatches_above_threshold (toLowerCase : jsstring -> jsstring)
    (inputText : jsstring) (dictionary : list Translation) (sourceField : FieldName)
    (result : list Translation) (e : Translation) :
  findMatches toLowerCase inputText dictionary sourceField = Normal result ->
  In e result ->
  exists q,
    calculateMatchSimilarity toLowerCase (normalizeText toLowerCase inputText)
      (getField sourceField e) = Normal q /\
    (6 # 10 < q)%Q.
Proof.
  intros Hrun Hin.
  destruct (findMatches_spec toLowerCase inputText dictionary sourceField)
    as (r & Hr & Hperm & _).
  rewrite Hrun in Hr. injection Hr as <-.
  apply (Permutation_in _ Hperm), keptEntries_In in Hin as [_ Hpass].
  unfold passes in Hpass. apply andb_prop in Hpass as [_ Hpass].
  destruct (calculateMatchSimilarity _ _ _) as [q|]; [|discriminate].
  exists q. split; [reflexivity|]. now apply Qgtb_lt.
Qed.

(** C7.  An entry whose assigned tier similarity is exactly [0.6] is not in
    the list [findMatches] returns: the comparison with the threshold is
    strict. *)
Theorem findMatches_excludes_threshold (toLowerCase : jsstring -> jsstring)
    (inputText : jsstring) (dictionary : list Translation) (sourceField : FieldName)
    (e : Translation) (q : Q) :
  calculateMatchSimilarity toLowerCase (normalizeText toLowerCase inputText)
    (getField sourceField e) = Normal q ->
  (q == 6 # 10)%Q ->
  exists result,
    findMatches toLowerCase inputText dictionary sourceField = Normal result /\
    ~ In e result.
Proof.
  intros Hq Heq.
  destruct (findMatches_spec toLowerCase inputText dictionary sourceField)
    as (result & Hrun & _).
  exists result. split; [exact Hrun|]. intros Hin.
  destruct (findMatches_above_threshold _ _ _ _ _ _ Hrun Hin) as (q' & Hq' & Hlt).
  rewrite Hq in Hq'. injection Hq' as <-. lra.
Qed.

Lemma findMatches_excludes_threshold_witness :
  calculateMatchSimilarity toLowerCaseASCII (normalizeText toLowerCaseASCII (js "abcde"))
    (getField englishField abcxyEntry) = Normal (3 # 5) /\
  (3 # 5 == 6 # 10)%Q /\
  exists result,
    findMatches toLowerCaseASCII (js "abcde") [abcxyEntry; helloEntry] englishField
      = Normal result /\
    ~ In abcxyEntry result.
Proof.
  split; [reflexivity|]. split; [reflexivity|].
  exact (findMatches_excludes_threshold toLowerCaseASCII (js "abcde")
           [abcxyEntry; helloEntry] englishField abcxyEntry (3 # 5)
           eq_refl eq_refl).
Defined.

(** ** C8: the order of the matches *)

(** C8.  The list [findMatches] returns is sorted by the assigned tier
    similarity, highest first, and for every similarity value the entries
    carrying it stand in the result in the order they have in the dictionary
    ([keptEntries] lists the dictionary entries that pass the threshold, in
    dictionary order). *)
Theorem findMatches_sorted_stable (toLowerCase : jsstring -> jsstring)
    (inputText : jsstring) (dictionary : list Translation) (sourceField : FieldName) :
  exists result,
    findMatches toLowerCase inputText dictionary sourceField = Normal result /\
    StronglySorted
      (rankedAbove toLowerCase (normalizeText toLowerCase inputText) sourceField)
      result /\
    forall q,
      List.filter
        (hasSimilarity toLowerCase (normalizeText toLowerCase inputText) sourceField q)
        result
      = List.filter
          (hasSimilarity toLowerCase (normalizeText toLowerCase inputText) sourceField q)
          (keptEntries toLowerCase inputText dictionary sourceField).
Proof.
  destruct (findMatches_spec toLowerCase inputText dictionary sourceField)
    as (result & Hrun & _ & Hsorted & Hstable).
  exists result. auto.
Qed.

(** ** C9: the range of the similarity *)

(** C9.  For every pair of strings [calculateSimilarity] returns a score in
    the closed interval from 0 to 1.  For two strings that are not empty the
    score is [1 - distance / maxLen], where the distance the loops leave in
    the last cell of the matrix is never negative and never more than the
    longer of the two lengths. *)
Theorem calculateSimilarity_range (str1 str2 : jsstring) :
  exists score,
    calculateSimilarity str1 str2 = Normal score /\
    (0 <= score <= 1)%Q /\
    (str1 <> [] -> str2 <> [] ->
     exists matrix distance,
       levenshteinMatrix str1 str2 = Normal matrix /\
       readCell matrix (length str2) (length str1) = Normal distance /\
       (0 <= distance <= Z.of_nat (Nat.max (length str1) (length str2)))%Z /\
       score = (1 - inject_Z distance
                    / inject_Z (Z.of_nat (Nat.max (length str1) (length str2))))%Q).
Proof.
  destruct (levenshtein_distance_bounded str1 str2)
    as (matrix & distance & Hmatrix & Hread & Hbound).
  unfold calculateSimilarity. rewrite Hmatrix. simpl. rewrite Hread. simpl.
  destruct str1 as [|c1 str1], str2 as [|c2 str2].
  - exists 1%Q. split; [reflexivity|]. split; [lra|]. intros H. now contradiction H.
  - exists 0%Q. split; [reflexivity|]. split; [lra|]. intros H. now contradiction H.
  - exists 0%Q. split; [reflexivity|]. split; [lra|]. intros _ H. now contradiction H.
  - eexists. split; [reflexivity|]. split.
    + apply distance_to_similarity; [exact Hbound|simpl; lia].
    + intros _ _. exists matrix, distance. auto.
Qed.

(** ** C10: input made of punctuation only *)

Lemma normalizeText_nil (toLowerCase : jsstring -> jsstring) :
  toLowerCase [] = [] -> normalizeText toLowerCase [] = [].
Proof. intros H. unfold normalizeText. now rewrite H. Qed.

Lemma calculateMatchSimilarity_empty_input (toLowerCase : jsstring -> jsstring)
    (sourceText : jsstring) :
  toLowerCase [] = [] ->
  exists q, calculateMatchSimilarity toLowerCase [] sourceText = Normal q /\
            (9 # 10 <= q)%Q.
Proof.
  intros Hnil. unfold calculateMatchSimilarity.
  destruct (isExactMatch _ _ _); [exists 1%Q; split; [reflexivity|lra]|].
  unfold containsText. rewrite (normalizeText_nil toLowerCase Hnil), includes_nil.
  rewrite orb_true_r. exists (9 # 10)%Q. split; [reflexivity|lra].
Qed.

(** C10.  When the trimmed input is not empty but its normal form is (input
    made of punctuation, such as "..."), [findMatches] returns every entry of
    the dictionary whose searched field is not empty, and each of them was
    assigned a similarity of at least [0.9]: the empty normal form is
    contained in every normalised entry text. *)
Theorem findMatches_punctuation_only (toLowerCase : jsstring -> jsstring)
    (inputText : jsstring) (dictionary : list Translation) (sourceField : FieldName) :
  toLowerCase [] = [] ->
  trim inputText <> [] ->
  normalizeText toLowerCase inputText = [] ->
  exists result,
    findMatches toLowerCase inputText dictionary sourceField = Normal result /\
    Permutation result
      (List.filter (fun e => truthy (getField sourceField e)) dictionary) /\
    Forall (fun e => exists q,
              calculateMatchSimilarity toLowerCase [] (getField sourceField e) = Normal q /\
              (9 # 10 <= q)%Q)
           result.
Proof.
  intros Hnil Htrim Hnorm.
  destruct (findMatches_spec toLowerCase inputText dictionary sourceField)
    as (result & Hrun & Hperm & _).
  exists result. split; [exact Hrun|].
  unfold keptEntries in Hperm. rewrite Hnorm in Hperm.
  destruct (trim inputText) as [|c t]; [contradiction|]. simpl in Hperm.
  split.
  - rewrite Hperm. erewrite filter_ext; [reflexivity|].
    intros e. unfold passes.
    destruct (calculateMatchSimilarity_empty_input toLowerCase
                (getField sourceField e) Hnil) as (q & -> & Hq).
    replace (Qgtb q (6 # 10)) with true; [apply andb_true_r|].
    symmetry. apply Qgtb_lt. lra.
  - apply List.Forall_forall. intros e _.
    now apply calculateMatchSimilarity_empty_input.
Qed.

Lemma findMatches_punctuation_only_witness :
  toLowerCaseASCII [] = [] /\
  trim (js "...") <> [] /\
  normalizeText toLowerCaseASCII (js "...") = [] /\
  exists result,
    findMatches toLowerCaseASCII (js "...") [helloEntry; abcxyEntry] englishField
      = Normal result /\
    Permutation result
      (List.filter (fun e => truthy (getField englishField e)) [helloEntry; abcxyEntry]) /\
    Forall (fun e => exists q,
              calculateMatchSimilarity toLowerCaseASCII [] (getField englishField e)
                = Normal q /\
              (9 # 10 <= q)%Q)
           result.
Proof.
  split; [reflexivity|]. split; [discriminate|]. split; [reflexivity|].
  apply (findMatches_punctuation_only toLowerCaseASCII (js "...")
           [helloEntry; abcxyEntry] englishField).
  - reflexivity.
  - discriminate.
  - reflexivity.
Defined.

(** * Further properties of the code *)

(** ** The matrix and the edit-distance recurrence *)

Lemma editDistance_0_l (str1 str2 : jsstring) (j : nat) :
  editDistance str1 str2 0 j = Z.of_nat j.
Proof. reflexivity. Qed.

Lemma editDistance_0_r (str1 str2 : jsstring) (i : nat) :
  editDistance str1 str2 i 0 = Z.of_nat i.
Proof. destruct i; reflexivity. Qed.

Lemma editDistance_S_S (str1 str2 : jsstring) (i j : nat) :
  editDistance str1 str2 (S i) (S j) =
  if streq (charAt str2 i) (charAt str1 j)
  then editDistance str1 str2 i j
  else Z.min (editDistance str1 str2 i j + 1)
         (Z.min (editDistance str1 str2 (S i) j + 1)
                (editDistance str1 str2 i (S j) + 1)).
Proof. reflexivity. Qed.

Lemma Holds_read (matrix : Matrix) (D : nat -> nat -> Prop) (V : nat -> nat -> Z)
    (i j : nat) :
  Holds matrix D V -> D i j -> readCell matrix i j = Normal (V i j).
Proof. intros HK Hij. now rewrite readCell_cell, (HK i j Hij). Qed.

Lemma Holds_weaken (matrix : Matrix) (D D' : nat -> nat -> Prop)
    (V : nat -> nat -> Z) :
  (forall r c, D' r c -> D r c) -> Holds matrix D V -> Holds matrix D' V.
Proof. intros Hsub HK r c Hrc. apply HK, Hsub, Hrc. Qed.

Lemma Holds_write (matrix : Matrix) (D : nat -> nat -> Prop) (V : nat -> nat -> Z)
    (i j : nat) :
  Holds matrix D V -> D i 0%nat ->
  exists matrix', writeCell matrix i j (V i j) = Normal matrix' /\
                  Holds matrix' (fun r c => D r c \/ (r = i /\ c = j)) V.
Proof.
  intros HK Hi0. specialize (HK i 0%nat Hi0) as Hcell.
  unfold cell in Hcell. unfold writeCell.
  destruct (arrGet matrix i) as [row|] eqn:Hrow; [|discriminate]. simpl.
  eexists. split; [reflexivity|].
  intros r c Hrc. rewrite cell_arrSet_row.
  destruct (decide (r = i)) as [->|Hne].
  - destruct (decide (c = j)) as [->|Hcj].
    + now rewrite arrGet_arrSet_eq.
    + rewrite arrGet_arrSet_ne by congruence.
      destruct Hrc as [Hrc|[_ Hrc]]; [|contradiction].
      specialize (HK i c Hrc). unfold cell in HK. now rewrite Hrow in HK.
  - destruct Hrc as [Hrc|[Hrc _]]; [|contradiction]. apply HK, Hrc.
Qed.

Lemma initRows_Holds (V : nat -> nat -> Z) (len2 : nat) :
  (forall r, V r 0%nat = Z.of_nat r) ->
  exists matrix, initRows len2 [] = Normal matrix /\
                 Holds matrix (fun r c => r <= len2 /\ c = 0%nat) V.
Proof.
  intros HV. unfold initRows.
  destruct (forUpTo_invariant
              (fun i m => Holds m (fun r c => r < i /\ c = 0%nat) V)
              (fun i m => mret (arrSet m i [Some (Z.of_nat i)])) 0 len2 [])
    as (matrix & Hrun & HK).
  - lia.
  - intros r c [Hr _]. lia.
  - intros k m _ HK. eexists. split; [reflexivity|].
    intros r c [Hr ->]. rewrite cell_arrSet_row.
    destruct (decide (r = k)) as [->|Hne].
    + now rewrite HV.
    + apply HK. lia.
  - exists matrix. split; [exact Hrun|].
    eapply Holds_weaken; [|exact HK]. simpl. intros r c [Hr ->]. lia.
Qed.

Lemma initFirstRow_Holds (V : nat -> nat -> Z) (len1 len2 : nat) (matrix : Matrix) :
  (forall c, V 0%nat c = Z.of_nat c) ->
  Holds matrix (fun r c => r <= len2 /\ c = 0%nat) V ->
  exists matrix', initFirstRow len1 matrix = Normal matrix' /\
    Holds matrix' (filledUpTo len1 len2 1 0) V.
Proof.
  intros HV HK0. unfold initFirstRow.
  destruct (forUpTo_invariant
              (fun j m => Holds m (fun r c => (r <= len2 /\ c = 0%nat) \/
                                              (r = 0%nat /\ c < j)) V)
              (fun j m => writeCell m 0 j (Z.of_nat j)) 0 len1 matrix)
    as (matrix' & Hrun & HK).
  - lia.
  - eapply Holds_weaken; [|exact HK0]. simpl. intros r c [H|[_ H]]; [exact H|lia].
  - intros k m _ HKm. rewrite <- HV.
    destruct (Holds_write m _ V 0 k HKm) as (m' & Hw & HKm').
    + left. lia.
    + exists m'. split; [exact Hw|].
      eapply Holds_weaken; [|exact HKm']. simpl.
      intros r c [H|[-> Hc]]; [now left; left|].
      destruct (decide (c = k)) as [->|Hne]; [now right|left; right; lia].
  - exists matrix'. split; [exact Hrun|].
    eapply Holds_weaken; [|exact HK]. unfold filledUpTo. simpl.
    intros r c (Hr & Hc & H). destruct (decide (c = 0%nat)); [left; lia|right; lia].
Qed.

Lemma fillCell_Holds (str1 str2 : jsstring) (len1 len2 i j : nat) (matrix : Matrix) :
  1 <= i <= len2 -> 1 <= j <= len1 ->
  Holds matrix (filledUpTo len1 len2 i j) (editDistance str1 str2) ->
  exists matrix', fillCell str1 str2 i j matrix = Normal matrix' /\
    Holds matrix' (filledUpTo len1 len2 i (j + 1)) (editDistance str1 str2).
Proof.
  intros Hi Hj HK. unfold fillCell.
  rewrite (Holds_read matrix _ _ (i - 1) (j - 1) HK) by (unfold filledUpTo; lia).
  rewrite (Holds_read matrix _ _ i (j - 1) HK) by (unfold filledUpTo; lia).
  rewrite (Holds_read matrix _ _ (i - 1) j HK) by (unfold filledUpTo; lia).
  destruct (Holds_write matrix _ _ i j HK) as (m' & Hw & HK');
    [unfold filledUpTo; lia|].
  exists m'. split.
  - rewrite <- Hw. destruct i as [|i]; [lia|]. destruct j as [|j]; [lia|].
    rewrite editDistance_S_S.
    replace (S i - 1) with i by lia. replace (S j - 1) with j by lia.
    destruct (streq _ _); reflexivity.
  - eapply Holds_weaken; [|exact HK']. unfold filledUpTo. simpl.
    intros r c (Hr & Hc & H).
    destruct (decide (r = i /\ c = j)) as [Heq|Hne]; [now right|left; lia].
Qed.

(** The three loops end normally and leave the recurrence in the matrix. *)
Lemma levenshteinMatrix_Holds (str1 str2 : jsstring) :
  exists matrix, levenshteinMatrix str1 str2 = Normal matrix /\
    Holds matrix (fun r c => r <= length str2 /\ c <= length str1)
      (editDistance str1 str2).
Proof.
  unfold levenshteinMatrix.
  set (len1 := length str1). set (len2 := length str2).
  destruct (initRows_Holds (editDistance str1 str2) len2) as (m0 & -> & HK0);
    [apply editDistance_0_r|]. simpl.
  destruct (initFirstRow_Holds (editDistance str1 str2) len1 len2 m0)
    as (m1 & -> & HK1); [apply editDistance_0_l|exact HK0|]. simpl.
  destruct (forUpTo_invariant
              (fun i m => Holds m (filledUpTo len1 len2 i 0) (editDistance str1 str2))
              (fun i m => forUpTo 1 len1 (fun j m' => fillCell str1 str2 i j m') m)
              1 len2 m1)
    as (m2 & Hrun & HK2).
  - lia.
  - exact HK1.
  - intros i m Hi HKi.
    destruct (forUpTo_invariant
                (fun j m' => Holds m' (filledUpTo len1 len2 i j) (editDistance str1 str2))
                (fun j m' => fillCell str1 str2 i j m') 1 len1 m)
      as (m' & Hinner & HK').
    + lia.
    + eapply Holds_weaken; [|exact HKi]. unfold filledUpTo. intros r c H. lia.
    + intros j t Hj HKt. now apply fillCell_Holds.
    + exists m'. split; [exact Hinner|].
      eapply Holds_weaken; [|exact HK']. unfold filledUpTo. intros r c H. lia.
  - exists m2. split; [exact Hrun|].
    eapply Holds_weaken; [|exact HK2]. unfold filledUpTo. simpl. intros r c H. lia.
Qed.

(** ** Properties of the recurrence *)

Lemma streq_sym (a b : jsstring) : streq a b = streq b a.
Proof.
  destruct (streq a b) eqn:E1, (streq b a) eqn:E2; try reflexivity.
  - apply streq_eq in E1. subst. now rewrite streq_refl in E2.
  - apply streq_eq in E2. subst. now rewrite streq_refl in E1.
Qed.

Lemma editDistance_sym (str1 str2 : jsstring) (i j : nat) :
  editDistance str1 str2 i j = editDistance str2 str1 j i.
Proof.
  revert j. induction i as [|i IHi]; intros j.
  - now rewrite editDistance_0_l, editDistance_0_r.
  - induction j as [|j IHj].
    + now rewrite editDistance_0_l, editDistance_0_r.
    + rewrite !editDistance_S_S, (streq_sym (charAt str1 j)).
      rewrite IHj, !IHi. destruct (streq _ _); [reflexivity|lia].
Qed.

Lemma editDistance_diagonal (s : jsstring) (i : nat) : editDistance s s i i = 0%Z.
Proof.
  induction i as [|i IH]; [reflexivity|].
  now rewrite editDistance_S_S, streq_refl.
Qed.

(** The distance is at least the difference of the two lengths and at most
    the larger of them. *)
Lemma editDistance_bounds (str1 str2 : jsstring) (i j : nat) :
  (Z.abs (Z.of_nat i - Z.of_nat j) <= editDistance str1 str2 i j
   <= Z.of_nat (Nat.max i j))%Z.
Proof.
  revert j. induction i as [|i IHi]; intros j.
  - rewrite editDistance_0_l. lia.
  - induction j as [|j IHj].
    + rewrite editDistance_0_r. lia.
    + rewrite editDistance_S_S.
      specialize (IHi j) as H1. specialize (IHi (S j)) as H2.
      destruct (streq _ _); lia.
Qed.

Lemma charAt_eq_lookup (s t : jsstring) (i j : nat) :
  i < length s -> streq (charAt s i) (charAt t j) = true ->
  exists c, s !! i = Some c /\ t !! j = Some c.
Proof.
  intros Hi Heq. apply streq_eq in Heq. unfold charAt in Heq.
  destruct (lookup_lt_is_Some_2 s i Hi) as [c Hc]. rewrite Hc in Heq.
  destruct (t !! j) as [d|]; [|discriminate].
  injection Heq as ->. eauto.
Qed.

(** A distance of zero is reached on equal prefixes only. *)
Lemma editDistance_zero (str1 str2 : jsstring) (i j : nat) :
  i <= length str2 -> j <= length str1 ->
  editDistance str1 str2 i j = 0%Z ->
  i = j /\ take i str2 = take j str1.
Proof.
  intros Hi Hj Hzero.
  assert (i = j) as <- by (pose proof (editDistance_bounds str1 str2 i j); lia).
  split; [reflexivity|].
  induction i as [|i IH]; [reflexivity|].
  rewrite editDistance_S_S in Hzero.
  destruct (streq (charAt str2 i) (charAt str1 i)) eqn:Hc.
  - destruct (charAt_eq_lookup str2 str1 i i ltac:(lia) Hc) as (c & H2 & H1).
    rewrite (take_S_r _ _ _ H2), (take_S_r _ _ _ H1).
    f_equal. apply IH; [lia|exact Hzero|lia].
  - pose proof (editDistance_bounds str1 str2 i i).
    pose proof (editDistance_bounds str1 str2 (S i) i).
    pose proof (editDistance_bounds str1 str2 i (S i)). lia.
Qed.

(** ** The similarity as a function of the recurrence *)

Lemma calculateSimilarity_editDistance (str1 str2 : jsstring) :
  str1 <> [] -> str2 <> [] ->
  calculateSimilarity str1 str2 =
  Normal (1 - inject_Z (editDistance str1 str2 (length str2) (length str1))
              / inject_Z (Z.of_nat (Nat.max (length str1) (length str2))))%Q.
Proof.
  intros H1 H2. unfold calculateSimilarity.
  assert (E1 : (length str1 =? 0)%nat = false)
    by (apply Nat.eqb_neq; destruct str1; [contradiction|discriminate]).
  assert (E2 : (length str2 =? 0)%nat = false)
    by (apply Nat.eqb_neq; destruct str2; [contradiction|discriminate]).
  rewrite E1, E2. simpl.
  destruct (levenshteinMatrix_Holds str1 str2) as (matrix & -> & HK). simpl.
  rewrite (Holds_read matrix _ _ (length str2) (length str1) HK) by (split; lia).
  reflexivity.
Qed.

Lemma similarity_is_one (d : Z) (m : nat) :
  (0 < m)%nat ->
  (1 - inject_Z d / inject_Z (Z.of_nat m) == 1)%Q <-> d = 0%Z.
Proof.
  intros Hm.
  assert (HM : ~ (inject_Z (Z.of_nat m) == 0)%Q).
  { replace 0%Q with (inject_Z 0) by reflexivity. rewrite inject_Z_injective. lia. }
  split.
  - intros H.
    assert (H0 : (inject_Z d / inject_Z (Z.of_nat m) == 0)%Q).
    { revert H. generalize (inject_Z d / inject_Z (Z.of_nat m))%Q. intros x Hx. lra. }
    assert (Hd : (inject_Z d == 0)%Q).
    { rewrite <- (Qmult_div_r (inject_Z d) (inject_Z (Z.of_nat m)) HM), H0. ring. }
    unfold Qeq in Hd. simpl in Hd. lia.
  - intros ->. unfold Qdiv. change (inject_Z 0) with 0%Q. ring.
Qed.

Lemma calculateSimilarity_reflexive_aux (s : jsstring) :
  exists score, calculateSimilarity s s = Normal score /\ (score == 1)%Q.
Proof.
  destruct s as [|c s].
  - exists 1%Q. split; reflexivity.
  - rewrite calculateSimilarity_editDistance by discriminate.
    eexists. split; [reflexivity|].
    apply similarity_is_one; [simpl; lia|]. apply editDistance_diagonal.
Qed.

Lemma calculateSimilarity_one_aux (a b : jsstring) (score : Q) :
  calculateSimilarity a b = Normal score -> (score == 1)%Q -> a = b.
Proof.
  intros Hrun Hone. destruct a as [|x a], b as [|y b].
  - reflexivity.
  - injection Hrun as <-. discriminate Hone.
  - injection Hrun as <-. discriminate Hone.
  - rewrite calculateSimilarity_editDistance in Hrun by discriminate.
    injection Hrun as <-.
    apply similarity_is_one in Hone; [|simpl; lia].
    destruct (editDistance_zero (x :: a) (y :: b) (length (y :: b)) (length (x :: a))
                ltac:(lia) ltac:(lia) Hone) as [_ Htake].
    now rewrite !firstn_all in Htake.
Qed.

(** ** SimilarityCalculator: further properties *)

(** X1.  When the three loops of [calculateSimilarity] have run, every cell
    [matrix[i][j]] with [i <= len2] and [j <= len1] is present and holds the
    edit distance, by the recurrence of the inner loop, between the first [i]
    code units of [str2] and the first [j] code units of [str1]; the first row
    and the first column hold the indices themselves. *)
Theorem levenshteinMatrix_computes_recurrence (str1 str2 : jsstring) :
  exists matrix,
    levenshteinMatrix str1 str2 = Normal matrix /\
    (forall i j, i <= length str2 -> j <= length str1 ->
       readCell matrix i j = Normal (editDistance str1 str2 i j)) /\
    (forall j, j <= length str1 -> readCell matrix 0 j = Normal (Z.of_nat j)) /\
    (forall i, i <= length str2 -> readCell matrix i 0 = Normal (Z.of_nat i)).
Proof.
  destruct (levenshteinMatrix_Holds str1 str2) as (matrix & Hrun & HK).
  exists matrix. split; [exact Hrun|].
  assert (Hread : forall i j, i <= length str2 -> j <= length str1 ->
            readCell matrix i j = Normal (editDistance str1 str2 i j)).
  { intros i j Hi Hj. apply (Holds_read matrix _ _ i j HK). auto. }
  split; [exact Hread|]. split.
  - intros j Hj. rewrite Hread by lia. now rewrite editDistance_0_l.
  - intros i Hi. rewrite Hread by lia. now rewrite editDistance_0_r.
Qed.

(** X2.  Every string is fully similar to itself:
    [calculateSimilarity(s, s)] is 1, for the empty string too. *)
Theorem calculateSimilarity_reflexive (s : jsstring) :
  exists score, calculateSimilarity s s = Normal score /\ (score == 1)%Q.
Proof.
  destruct (calculateSimilarity_reflexive_aux s) as (score & Hrun & Hone).
  exists score. split; [exact Hrun|exact Hone].
Qed.

(** X3.  The similarity is symmetric: [calculateSimilarity(a, b)] and
    [calculateSimilarity(b, a)] are the same number. *)
Theorem calculateSimilarity_symmetric (a b : jsstring) :
  calculateSimilarity a b = calculateSimilarity b a.
Proof.
  destruct a as [|x a], b as [|y b]; try reflexivity.
  rewrite !calculateSimilarity_editDistance by discriminate.
  now rewrite editDistance_sym, Nat.max_comm.
Qed.

(** X4.  Only identical strings reach the score 1: if
    [calculateSimilarity(a, b)] is 1 then [a] and [b] are the same string. *)
Theorem calculateSimilarity_one_only_if_equal (a b : jsstring) (score : Q) :
  calculateSimilarity a b = Normal score -> (score == 1)%Q -> a = b.
Proof.
  intros Hrun Hone. exact (calculateSimilarity_one_aux a b score Hrun Hone).
Qed.

Lemma calculateSimilarity_one_only_if_equal_witness :
  calculateSimilarity (js "Qapla'") (js "Qapla'") = Normal (6 # 6) /\
  (6 # 6 == 1)%Q /\ js "Qapla'" = js "Qapla'".
Proof.
  split; [reflexivity|]. split; [reflexivity|].
  exact (calculateSimilarity_one_only_if_equal (js "Qapla'") (js "Qapla'") (6 # 6)
           eq_refl eq_refl).
Defined.


(** X6.  [isSimilar] at the ends of the scale: with a threshold of 0 or
    less every pair is similar, with a threshold above 1 none is, and a
    string is similar to itself at every threshold up to 1. *)
Theorem isSimilar_threshold_extremes (a b : jsstring) (threshold : Q) :
  ((threshold <= 0)%Q -> isSimilar a b threshold = Normal true) /\
  ((1 < threshold)%Q -> isSimilar a b threshold = Normal false) /\
  ((threshold <= 1)%Q -> isSimilar a a threshold = Normal true).
Proof.
  unfold isSimilar, Qgeb. repeat split.
  - intros Ht. destruct (calculateSimilarity_returns a b) as (q & -> & Hq). simpl.
    f_equal. apply Qle_bool_iff. lra.
  - intros Ht. destruct (calculateSimilarity_returns a b) as (q & -> & Hq). simpl.
    f_equal. destruct (Qle_bool threshold q) eqn:E; [|reflexivity].
    apply Qle_bool_iff in E. lra.
  - intros Ht. destruct (calculateSimilarity_reflexive_aux a) as (q & -> & Hq). simpl.
    f_equal. apply Qle_bool_iff. lra.
Qed.

Lemma isSimilar_threshold_extremes_witness :
  isSimilar (js "cat") (js "dog") 0 = Normal true /\
  isSimilar (js "cat") (js "cat") 2 = Normal false /\
  isSimilar (js "cat") (js "cat") 1 = Normal true.
Proof.
  destruct (isSimilar_threshold_extremes (js "cat") (js "dog") 0) as (H0 & _ & _).
  destruct (isSimilar_threshold_extremes (js "cat") (js "cat") 2) as (_ & H2 & _).
  destruct (isSimilar_threshold_extremes (js "cat") (js "cat") 1) as (_ & _ & H1).
  split; [apply H0; discriminate|].
  split; [apply H2; reflexivity|apply H1; discriminate].
Defined.

(** X7.  A target that is among the candidates is found: [findMostSimilar]
    returns the target itself, whatever else the list holds. *)
Theorem findMostSimilar_finds_target (target : jsstring) (candidates : list jsstring) :
  In target candidates ->
  findMostSimilar target candidates = Normal (Some target).
Proof.
  intros Hin. unfold findMostSimilar.
  destruct candidates as [|c rest]; [contradiction|].
  change (length (c :: rest) =? 0)%nat with false. cbv iota.
  destruct (scanCandidates_scanned target (c :: rest) [] 0%Q None)
    as (result & top & -> & Hscan).
  { split; [reflexivity|constructor]. }
  simpl app in Hscan.
  destruct (calculateSimilarity_reflexive_aux target) as (one & Hone & Hone1).
  assert (Hscore : forall (P : Q -> Prop), scoreOf target target P -> P one).
  { intros P (q & Hq & HP). rewrite Hone in Hq. now injection Hq as <-. }
  f_equal. destruct result as [best|]; simpl in Hscan.
  - destruct Hscan as (before & after & Heq & Hbest & Hpos & Hb & Ha).
    destruct (calculateSimilarity_returns target best) as (q & Hq & Hq01).
    rewrite Hbest in Hq. injection Hq as <-.
    rewrite Heq in Hin. apply in_app_or in Hin as [Hin|[<-|Hin]].
    + rewrite List.Forall_forall in Hb. apply Hb, Hscore in Hin. lra.
    + reflexivity.
    + rewrite List.Forall_forall in Ha. apply Ha, Hscore in Hin.
      f_equal. symmetry.
      apply (calculateSimilarity_one_aux target best top Hbest). lra.
  - destruct Hscan as (_ & Hall).
    rewrite List.Forall_forall in Hall. apply Hall, Hscore in Hin. lra.
Qed.

Lemma findMostSimilar_finds_target_witness :
  In (js "help") [js "hello"; js "world"; js "help"] /\
  findMostSimilar (js "help") [js "hello"; js "world"; js "help"]
  = Normal (Some (js "help")).
Proof.
  assert (Hin : In (js "help") [js "hello"; js "world"; js "help"])
    by (right; right; left; reflexivity).
  split; [exact Hin|].
  exact (findMostSimilar_finds_target (js "help") _ Hin).
Defined.

(** ** TextNormalizer: further properties *)

Lemma startsWith_refl (s : jsstring) : startsWith s s = true.
Proof. induction s as [|c s IH]; simpl; [reflexivity|]. now rewrite N.eqb_refl. Qed.

Lemma includes_refl (s : jsstring) : includes s s = true.
Proof. destruct s; simpl; [reflexivity|]. now rewrite N.eqb_refl, startsWith_refl. Qed.

Lemma collapseFrom_nil (s : jsstring) : collapseFrom false s = [] -> s = [].
Proof. destruct s as [|c s]; [reflexivity|]. simpl. now destruct (isWhiteSpace c). Qed.

Lemma removePunctuation_nil (s : jsstring) :
  truthy (removePunctuation s) = negb (forallb isPunctuation s).
Proof.
  induction s as [|c s IH]; simpl; [reflexivity|].
  destruct (isPunctuation c); simpl; [exact IH|reflexivity].
Qed.

Lemma canonicalFrom_suffix (f : N -> N) (b : bool) (s1 s2 : jsstring) :
  canonicalFrom f b (s1 ++ s2) -> exists b', canonicalFrom f b' s2.
Proof.
  revert b. induction s1 as [|c s1 IH]; intros b; simpl; [eauto|].
  intros (_ & _ & H). destruct (isWhiteSpace c).
  - destruct H as (_ & _ & H). eauto.
  - eauto.
Qed.

Lemma canonicalFrom_singleSpaced (f : N -> N) (b : bool) (s : jsstring) :
  canonicalFrom f b s -> singleSpaced s.
Proof.
  intros H. split.
  - revert b H. induction s as [|c s IH]; intros b H; [constructor|].
    simpl in H. destruct H as (_ & _ & H).
    destruct (isWhiteSpace c) eqn:Hws.
    + destruct H as (-> & _ & H). constructor; [reflexivity|eauto].
    + constructor; [intros Hc; congruence|eauto].
  - intros before after ->.
    apply canonicalFrom_suffix in H as (b' & H).
    change (canonicalFrom f b' (space :: space :: after)) with
      (f space = space /\ isPunctuation space = false /\
       (space = space /\ b' = false /\
        (f space = space /\ isPunctuation space = false /\
         (space = space /\ true = false /\ canonicalFrom f true after)))) in H.
    destruct H as (_ & _ & _ & _ & _ & _ & _ & H & _). discriminate.
Qed.

Lemma canonicalFrom_noPunctuation (f : N -> N) (b : bool) (s : jsstring) :
  canonicalFrom f b s -> Forall (fun c => isPunctuation c = false) s.
Proof.
  revert b. induction s as [|c t IH]; intros b H; [constructor|].
  simpl in H. destruct H as (_ & Hp & H). constructor; [exact Hp|].
  destruct (isWhiteSpace c); [destruct H as (_ & _ & H)|]; eauto.
Qed.

(** X8.  A normalised text, whatever the input, contains none of the six
    punctuation marks and no white space other than single spaces (it may
    still begin or end with one). *)
Theorem normalizeText_shape (toLowerCase : jsstring -> jsstring) (s : jsstring) :
  Forall (fun c => isPunctuation c = false) (normalizeText toLowerCase s) /\
  singleSpaced (normalizeText toLowerCase s).
Proof.
  assert (Hcanon : canonicalFrom (fun c => c) false (normalizeText toLowerCase s)).
  { unfold normalizeText, collapseWhitespace.
    apply (canonicalFrom_collapse (fun c => c)); [reflexivity|].
    apply List.Forall_forall. intros c [_ Hp]%filter_In.
    split; [reflexivity|now apply negb_true_iff]. }
  split.
  - exact (canonicalFrom_noPunctuation _ _ _ Hcanon).
  - exact (canonicalFrom_singleSpaced _ _ _ Hcanon).
Qed.

(** X9.  [isEmptyText] is true exactly when the lower-cased text, once
    trimmed, is made of punctuation marks only: white space inside the
    punctuation, as in "! ?", is kept as a space and the text is not empty. *)
Theorem isEmptyText_characterised (toLowerCase : jsstring -> jsstring) (s : jsstring) :
  isEmptyText toLowerCase s = forallb isPunctuation (trim (toLowerCase s)).
Proof.
  unfold isEmptyText, normalizeText, collapseWhitespace.
  rewrite streq_nil_r.
  rewrite <- (negb_involutive (forallb _ _)), <- removePunctuation_nil. f_equal.
  destruct (removePunctuation (trim (toLowerCase s))) as [|c t] eqn:E.
  - reflexivity.
  - simpl. now destruct (isWhiteSpace c).
Qed.

(** X10.  [containsText] does not depend on the order of its arguments; it
    is true whenever [isExactMatch] is, and whenever one of the two texts is
    empty text. *)
Theorem containsText_symmetric (toLowerCase : jsstring -> jsstring) (a b : jsstring) :
  containsText toLowerCase a b = containsText toLowerCase b a /\
  (isExactMatch toLowerCase a b = true -> containsText toLowerCase a b = true) /\
  (isEmptyText toLowerCase a = true -> containsText toLowerCase a b = true).
Proof.
  unfold containsText, isExactMatch, isEmptyText. repeat split.
  - apply orb_comm.
  - intros H%streq_eq. rewrite H, includes_refl. reflexivity.
  - intros H%streq_eq. rewrite H, includes_nil. apply orb_true_r.
Qed.

Lemma containsText_symmetric_witness :
  containsText toLowerCaseASCII (js "Hello!") (js "hello") = true /\
  containsText toLowerCaseASCII (js "?!") (js "nuqneH") = true.
Proof.
  destruct (containsText_symmetric toLowerCaseASCII (js "Hello!") (js "hello"))
    as (_ & Hexact & _).
  destruct (containsText_symmetric toLowerCaseASCII (js "?!") (js "nuqneH"))
    as (_ & _ & Hempty).
  split; [apply Hexact|apply Hempty]; reflexivity.
Defined.

(** ** DictionaryMatcher: further properties *)

Lemma calculateMatchSimilarity_one (toLowerCase : jsstring -> jsstring)
    (normalizedInput sourceText : jsstring) (q : Q) :
  calculateMatchSimilarity toLowerCase normalizedInput sourceText = Normal q ->
  (q == 1)%Q ->
  isExactMatch toLowerCase normalizedInput (normalizeText toLowerCase sourceText) = true.
Proof.
  unfold calculateMatchSimilarity.
  destruct (isExactMatch _ _ _) eqn:Hexact; [reflexivity|].
  destruct (containsText _ _ _).
  - intros [= <-] H. discriminate H.
  - intros Hrun Hone.
    apply (calculateSimilarity_one_aux _ _ _ Hrun) in Hone.
    unfold isExactMatch in Hexact. rewrite Hone, streq_refl in Hexact. discriminate.
Qed.

Lemma calculateMatchSimilarity_exact (toLowerCase : jsstring -> jsstring)
    (normalizedInput sourceText : jsstring) :
  isExactMatch toLowerCase normalizedInput (normalizeText toLowerCase sourceText) = true ->
  calculateMatchSimilarity toLowerCase normalizedInput sourceText = Normal 1%Q.
Proof. intros H. unfold calculateMatchSimilarity. now rewrite H. Qed.

(** X11.  The tier similarity of an entry is a number from 0 to 1, and it is
    1 exactly when the entry is an exact match of the input: neither the
    partial tier nor the fuzzy tier ever assigns 1. *)
Theorem calculateMatchSimilarity_tiers (toLowerCase : jsstring -> jsstring)
    (normalizedInput sourceText : jsstring) :
  exists q,
    calculateMatchSimilarity toLowerCase normalizedInput sourceText = Normal q /\
    (0 <= q <= 1)%Q /\
    ((q == 1)%Q <->
     isExactMatch toLowerCase normalizedInput
       (normalizeText toLowerCase sourceText) = true).
Proof.
  destruct (calculateMatchSimilarity_range toLowerCase normalizedInput sourceText)
    as (q & Hq & Hrange).
  exists q. split; [exact Hq|]. split; [exact Hrange|]. split.
  - now apply calculateMatchSimilarity_one.
  - intros Hexact. rewrite (calculateMatchSimilarity_exact _ _ _ Hexact) in Hq.
    injection Hq as <-. reflexivity.
Qed.

(** X12.  [findMatches] returns exactly the dictionary entries that have the
    searched field and whose tier similarity exceeds 0.6, each as often as
    the dictionary holds it, and nothing when the trimmed input is empty. *)
Theorem findMatches_sound_complete (toLowerCase : jsstring -> jsstring)
    (inputText : jsstring) (dictionary : list Translation) (sourceField : FieldName) :
  exists result,
    findMatches toLowerCase inputText dictionary sourceField = Normal result /\
    Permutation result (keptEntries toLowerCase inputText dictionary sourceField) /\
    (forall e,
       In e result <->
       trim inputText <> [] /\ In e dictionary /\
       getField sourceField e <> [] /\
       exists q,
         calculateMatchSimilarity toLowerCase (normalizeText toLowerCase inputText)
           (getField sourceField e) = Normal q /\
         (6 # 10 < q)%Q).
Proof.
  destruct (findMatches_spec toLowerCase inputText dictionary sourceField)
    as (result & Hrun & Hperm & _).
  exists result. split; [exact Hrun|]. split; [exact Hperm|].
  intros e. rewrite Hperm. unfold keptEntries.
  destruct (trim inputText) as [|c t]; simpl.
  - split; [contradiction|]. intros [H _]. now contradiction H.
  - rewrite filter_In. unfold passes. rewrite andb_true_iff. split.
    + intros (Hin & Htruthy & Hpass). split; [discriminate|]. split; [exact Hin|].
      split; [now destruct (getField sourceField e)|].
      destruct (calculateMatchSimilarity _ _ _) as [q|]; [|discriminate].
      exists q. split; [reflexivity|]. now apply Qgtb_lt.
    + intros (_ & Hin & Hfield & q & Hq & Hlt). split; [exact Hin|]. split.
      * now destruct (getField sourceField e).
      * rewrite Hq. now apply Qgtb_lt.
Qed.

(** The list of matches begins with the first exact match. *)
Lemma findMatches_first_exact_aux (toLowerCase : jsstring -> jsstring)
    (inputText : jsstring) (before after : list Translation) (e : Translation)
    (sourceField : FieldName) :
  trim inputText <> [] ->
  getField sourceField e <> [] ->
  isExactMatch toLowerCase (normalizeText toLowerCase inputText)
    (normalizeText toLowerCase (getField sourceField e)) = true ->
  Forall (fun x =>
            getField sourceField x <> [] ->
            isExactMatch toLowerCase (normalizeText toLowerCase inputText)
              (normalizeText toLowerCase (getField sourceField x)) = false)
         before ->
  exists rest,
    findMatches toLowerCase inputText (before ++ e :: after) sourceField
    = Normal (e :: rest).
Proof.
  intros Htrim Hfield Hexact Hbefore.
  set (ni := normalizeText toLowerCase inputText) in *.
  destruct (findMatches_spec toLowerCase inputText (before ++ e :: after) sourceField)
    as (result & Hrun & Hperm & Hsorted & Hstable).
  fold ni in Hsorted, Hstable. specialize (Hstable 1%Q).
  assert (He1 : calculateMatchSimilarity toLowerCase ni (getField sourceField e)
                = Normal 1%Q) by now apply calculateMatchSimilarity_exact.
  assert (Hkept : keptEntries toLowerCase inputText (before ++ e :: after) sourceField
                  = List.filter (passes toLowerCase ni sourceField) before
                    ++ e :: List.filter (passes toLowerCase ni sourceField) after).
  { unfold keptEntries. destruct (trim inputText); [contradiction|]. simpl.
    rewrite List.filter_app. simpl. fold ni. unfold passes at 2. rewrite He1.
    now destruct (getField sourceField e). }
  assert (Hnone : List.filter (hasSimilarity toLowerCase ni sourceField 1)
                    (List.filter (passes toLowerCase ni sourceField) before) = []).
  { clear -Hbefore. induction Hbefore as [|x l Hx _ IH]; simpl; [reflexivity|].
    destruct (passes toLowerCase ni sourceField x) eqn:Hpass; [|exact IH].
    simpl. rewrite IH.
    unfold passes in Hpass. apply andb_prop in Hpass as [Htruthy _].
    unfold hasSimilarity.
    destruct (calculateMatchSimilarity toLowerCase ni (getField sourceField x))
      as [q|] eqn:Hq; [|reflexivity].
    destruct (Qeq_bool q 1) eqn:Hone; [|reflexivity].
    apply Qeq_bool_iff in Hone.
    apply (calculateMatchSimilarity_one _ _ _ _ Hq) in Hone.
    rewrite Hx in Hone; [discriminate|]. now destruct (getField sourceField x). }
  rewrite Hkept, List.filter_app, Hnone in Hstable. simpl in Hstable.
  unfold hasSimilarity at 2 in Hstable. rewrite He1 in Hstable. simpl in Hstable.
  destruct result as [|h rest]; [discriminate|].
  exists rest. rewrite Hrun. do 2 f_equal.
  assert (Hh : hasSimilarity toLowerCase ni sourceField 1 h = true).
  { apply StronglySorted_inv in Hsorted as [_ Hall].
    assert (Hin : In e (h :: rest)).
    { eapply Permutation_in; [symmetry; exact Hperm|].
      rewrite Hkept. apply in_or_app. right. now left. }
    unfold hasSimilarity.
    destruct Hin as [->|Hin].
    - now rewrite He1.
    - rewrite List.Forall_forall in Hall.
      destruct (Hall e Hin) as (qh & qe & Hqh & Hqe & Hle).
      rewrite He1 in Hqe. injection Hqe as <-. rewrite Hqh.
      destruct (calculateMatchSimilarity_range toLowerCase ni (getField sourceField h))
        as (q' & Hq' & _ & Hle1).
      rewrite Hqh in Hq'. injection Hq' as <-.
      apply Qeq_bool_iff. lra. }
  simpl in Hstable. rewrite Hh in Hstable. now injection Hstable.
Qed.

(** X13.  The best match is the first exact match: when the dictionary holds
    an entry that matches the input exactly (and has the searched field), the
    list [findMatches] returns begins with the first such entry of the
    dictionary. *)
Theorem findMatches_first_exact (toLowerCase : jsstring -> jsstring)
    (inputText : jsstring) (before after : list Translation) (e : Translation)
    (sourceField : FieldName) :
  trim inputText <> [] ->
  getField sourceField e <> [] ->
  isExactMatch toLowerCase (normalizeText toLowerCase inputText)
    (normalizeText toLowerCase (getField sourceField e)) = true ->
  Forall (fun x =>
            getField sourceField x <> [] ->
            isExactMatch toLowerCase (normalizeText toLowerCase inputText)
              (normalizeText toLowerCase (getField sourceField x)) = false)
         before ->
  exists rest,
    findMatches toLowerCase inputText (before ++ e :: after) sourceField
    = Normal (e :: rest).
Proof.
  intros Htrim Hfield Hexact Hbefore.
  destruct (findMatches_first_exact_aux toLowerCase inputText before after e
              sourceField Htrim Hfield Hexact Hbefore) as (rest & Hrun).
  exists rest. exact Hrun.
Qed.

Lemma findMatches_first_exact_witness :
  trim (js "Hello!") <> [] /\
  getField englishField helloEntry <> [] /\
  isExactMatch toLowerCaseASCII (normalizeText toLowerCaseASCII (js "Hello!"))
    (normalizeText toLowerCaseASCII (getField englishField helloEntry)) = true /\
  exists rest,
    findMatches toLowerCaseASCII (js "Hello!")
      ([abcxyEntry; abcxyEntry] ++ helloEntry :: [bracketEntry])
      englishField
    = Normal (helloEntry :: rest).
Proof.
  split; [discriminate|]. split; [discriminate|]. split; [reflexivity|].
  apply (findMatches_first_exact toLowerCaseASCII (js "Hello!")).
  - discriminate.
  - discriminate.
  - reflexivity.
  - repeat constructor.
Defined.

(** ** searchDictionary *)

(** X14.  A query that is not blank but normalises to the empty string (a
    query of punctuation marks) matches everything: [searchDictionary]
    returns the whole dictionary, in its order. *)
Theorem searchDictionary_punctuation_query (toLowerCase : jsstring -> jsstring)
    (query : jsstring) (dictionary : list Translation) :
  trim query <> [] ->
  normalizeText toLowerCase query = [] ->
  searchDictionary toLowerCase query dictionary = dictionary.
Proof.
  intros Htrim Hnorm. unfold searchDictionary. rewrite Hnorm.
  destruct (trim query); [contradiction|]. simpl.
  induction dictionary as [|e rest IH]; simpl; [reflexivity|].
  now rewrite includes_nil, IH.
Qed.

Lemma searchDictionary_punctuation_query_witness :
  trim (js "?!") <> [] /\
  normalizeText toLowerCaseASCII (js "?!") = [] /\
  searchDictionary toLowerCaseASCII (js "?!") [helloEntry; abcxyEntry]
  = [helloEntry; abcxyEntry].
Proof.
  split; [discriminate|]. split; [reflexivity|].
  apply (searchDictionary_punctuation_query toLowerCaseASCII (js "?!")).
  - discriminate.
  - reflexivity.
Defined.

(** X15.  Searching for the text of an entry finds the entry: an entry of
    the dictionary is among the results of [searchDictionary] for its own
    English text, for its own Klingon text and for its own category, provided
    the text searched for is not blank.  Results are always entries of the
    dictionary, and a blank query has none. *)
Theorem searchDictionary_finds_own_text (toLowerCase : jsstring -> jsstring)
    (dictionary : list Translation) (e : Translation) :
  In e dictionary ->
  (trim (english e) <> [] ->
   In e (searchDictionary toLowerCase (english e) dictionary)) /\
  (trim (klingon e) <> [] ->
   In e (searchDictionary toLowerCase (klingon e) dictionary)) /\
  (forall c, category e = Some c -> trim c <> [] ->
   In e (searchDictionary toLowerCase c dictionary)) /\
  (forall query x, In x (searchDictionary toLowerCase query dictionary) ->
                   In x dictionary /\ trim query <> []).
Proof.
  intros Hin. unfold searchDictionary. repeat split.
  - intros Htrim. destruct (trim (english e)); [contradiction|]. simpl.
    apply filter_In. split; [exact Hin|]. now rewrite includes_refl.
  - intros Htrim. destruct (trim (klingon e)); [contradiction|]. simpl.
    apply filter_In. split; [exact Hin|]. now rewrite includes_refl, orb_true_r.
  - intros c Hc Htrim.
    assert (Htruthy : truthy c = true).
    { destruct c; [|reflexivity]. now contradiction Htrim. }
    destruct (trim c); [contradiction|]. simpl.
    apply filter_In. split; [exact Hin|].
    rewrite Hc, Htruthy, includes_refl. apply orb_true_r.
  - destruct (trim query); simpl in H; [contradiction|]. now apply filter_In in H.
  - destruct (trim query); simpl in H; [contradiction|discriminate].
Qed.

Lemma searchDictionary_finds_own_text_witness :
  In helloEntry [abcxyEntry; helloEntry] /\
  In helloEntry (searchDictionary toLowerCaseASCII (js "hello") [abcxyEntry; helloEntry]) /\
  In helloEntry (searchDictionary toLowerCaseASCII (js "nuqneH") [abcxyEntry; helloEntry]) /\
  In helloEntry (searchDictionary toLowerCaseASCII (js "greetings") [abcxyEntry; helloEntry]).
Proof.
  assert (Hin : In helloEntry [abcxyEntry; helloEntry]) by (right; left; reflexivity).
  destruct (searchDictionary_finds_own_text toLowerCaseASCII
              [abcxyEntry; helloEntry] helloEntry Hin) as (He & Hk & Hc & _).
  split; [exact Hin|]. split; [apply He; discriminate|].
  split; [apply Hk; discriminate|].
  apply (Hc (js "greetings")); [reflexivity|discriminate].
Defined.

(** ** Categories *)

Lemma strLt_irrefl (a : jsstring) : strLt a a = false.
Proof.
  induction a as [|x a IH]; simpl; [reflexivity|]. now rewrite N.ltb_irrefl.
Qed.

Lemma strLt_trans (a b c : jsstring) :
  strLt a b = true -> strLt b c = true -> strLt a c = true.
Proof.
  revert b c. induction a as [|x a IH]; intros [|y b] [|z c]; simpl; try easy.
  destruct (N.ltb_spec x y), (N.ltb_spec y x), (N.ltb_spec y z), (N.ltb_spec z y),
    (N.ltb_spec x z), (N.ltb_spec z x); try easy; try lia.
  apply IH.
Qed.

Lemma strLt_total (a b : jsstring) :
  strLt a b = false -> strLt b a = false -> a = b.
Proof.
  revert b. induction a as [|x a IH]; intros [|y b]; simpl; try easy.
  destruct (N.ltb_spec x y), (N.ltb_spec y x); try easy.
  intros Hab Hba. f_equal; [lia|now apply IH].
Qed.

Lemma insertSorted_Permutation_any {A} (compare : A -> A -> Q) (x : A) (l : list A) :
  Permutation (insertSorted compare x l) (x :: l).
Proof.
  induction l as [|y l IH]; simpl; [reflexivity|].
  destruct (Qgtb (compare x y) 0); [|reflexivity].
  rewrite IH. apply perm_swap.
Qed.

Lemma sort_Permutation_any {A} (compare : A -> A -> Q) (l : list A) :
  Permutation (sort compare l) l.
Proof.
  induction l as [|x l IH]; simpl; [reflexivity|].
  rewrite insertSorted_Permutation_any. now constructor.
Qed.

Lemma defaultCompare_gt (a b : jsstring) :
  Qgtb (defaultCompare a b) 0 = negb (strLt a b) && strLt b a.
Proof. unfold defaultCompare. destruct (strLt a b), (strLt b a); reflexivity. Qed.

Lemma insertSorted_default_sorted (x : jsstring) (l : list jsstring) :
  ~ In x l ->
  StronglySorted (fun a b => strLt a b = true) l ->
  StronglySorted (fun a b => strLt a b = true) (insertSorted defaultCompare x l).
Proof.
  intros Hnotin Hsorted. induction Hsorted as [|y l Hsorted IH Hy]; simpl.
  - repeat constructor.
  - rewrite defaultCompare_gt.
    destruct (strLt x y) eqn:Hxy; simpl.
    + constructor; [now constructor|]. constructor; [exact Hxy|].
      eapply List.Forall_impl; [|exact Hy]. intros z Hz. now apply (strLt_trans x y z).
    + destruct (strLt y x) eqn:Hyx.
      * constructor; [apply IH; intros Hin; apply Hnotin; now right|].
        rewrite insertSorted_Permutation_any. now constructor.
      * exfalso. apply Hnotin. left. symmetry. now apply strLt_total.
Qed.

Lemma sort_default_sorted (l : list jsstring) :
  NoDup l -> StronglySorted (fun a b => strLt a b = true) (sort defaultCompare l).
Proof.
  induction 1 as [|x l Hx Hnodup IH]; simpl; [constructor|].
  apply insertSorted_default_sorted; [|exact IH].
  intros Hin. apply Hx, list_elem_of_In.
  eapply Permutation_in; [apply sort_Permutation_any|exact Hin].
Qed.

Lemma existsb_streq (v : jsstring) (seen : list jsstring) :
  existsb (streq v) seen = true <-> In v seen.
Proof.
  rewrite existsb_exists. split.
  - intros (x & Hx & Heq%streq_eq). now subst.
  - intros H. exists v. split; [exact H|apply streq_refl].
Qed.

Lemma setFrom_spec (values seen : list jsstring) :
  NoDup seen ->
  NoDup (setFrom values seen) /\
  forall c, In c (setFrom values seen) <-> In c seen \/ In c values.
Proof.
  revert seen. induction values as [|v values IH]; intros seen Hseen; simpl.
  - split; [exact Hseen|]. intros c. tauto.
  - destruct (existsb (streq v) seen) eqn:Hv.
    + apply existsb_streq in Hv. destruct (IH seen Hseen) as [Hnodup Hin].
      split; [exact Hnodup|]. intros c. rewrite Hin.
      split; [tauto|]. intros [H|[<-|H]]; tauto.
    + assert (Hnotin : ~ In v seen).
      { intros H. apply existsb_streq in H. congruence. }
      destruct (IH (seen ++ [v])) as [Hnodup Hin].
      { apply NoDup_app. split; [exact Hseen|]. split.
        - intros x Hx Hxv. apply list_elem_of_In in Hx, Hxv.
          destruct Hxv as [<-|[]]. contradiction.
        - apply NoDup_singleton. }
      split; [exact Hnodup|]. intros c. rewrite Hin, in_app_iff. simpl. tauto.
Qed.

Lemma presentCategories_In (dictionary : list Translation) (c : jsstring) :
  In c (presentCategories dictionary) <->
  c <> [] /\ exists e, In e dictionary /\ category e = Some c.
Proof.
  unfold presentCategories. induction dictionary as [|e rest IH]; simpl.
  - split; [contradiction|]. intros (_ & x & [] & _).
  - destruct (category e) as [c'|] eqn:Hc; [destruct (truthy c') eqn:Ht|]; simpl.
    + rewrite IH. split.
      * intros [<-|(Hne & x & Hx & Hxc)].
        -- split; [now destruct c'|]. exists e. auto.
        -- split; [exact Hne|]. exists x. auto.
      * intros (Hne & x & [<-|Hx] & Hxc).
        -- left. congruence.
        -- right. split; [exact Hne|]. exists x. auto.
    + rewrite IH. split.
      * intros (Hne & x & Hx & Hxc). split; [exact Hne|]. exists x. auto.
      * intros (Hne & x & [<-|Hx] & Hxc).
        -- rewrite Hc in Hxc. injection Hxc as ->. now destruct c.
        -- split; [exact Hne|]. exists x. auto.
    + rewrite IH. split.
      * intros (Hne & x & Hx & Hxc). split; [exact Hne|]. exists x. auto.
      * intros (Hne & x & [<-|Hx] & Hxc); [congruence|].
        split; [exact Hne|]. exists x. auto.
Qed.

Lemma getCategories_In (dictionary : list Translation) (c : jsstring) :
  In c (getCategories dictionary) <->
  c <> [] /\ exists e, In e dictionary /\ category e = Some c.
Proof.
  unfold getCategories. rewrite <- presentCategories_In.
  destruct (setFrom_spec (presentCategories dictionary) []) as [_ Hin];
    [constructor|].
  split.
  - intros H. eapply Permutation_in in H; [|apply sort_Permutation_any].
    apply Hin in H. destruct H as [[]|H]. exact H.
  - intros H. eapply Permutation_in; [symmetry; apply sort_Permutation_any|].
    apply Hin. now right.
Qed.

(** X16.  [getCategories] lists the categories in strictly ascending order
    of their code units, so none twice, and lists exactly the non-empty
    categories that some entry of the dictionary carries. *)
Theorem getCategories_sorted_exact (dictionary : list Translation) :
  StronglySorted (fun a b => strLt a b = true) (getCategories dictionary) /\
  forall c, In c (getCategories dictionary) <->
            c <> [] /\ exists e, In e dictionary /\ category e = Some c.
Proof.
  split; [|apply getCategories_In].
  unfold getCategories. apply sort_default_sorted.
  now apply setFrom_spec; constructor.
Qed.

(** X17.  [getTranslationsByCategory] returns exactly the entries whose
    category is the given string, and the two category functions agree: a
    non-empty category is listed by [getCategories] exactly when
    [getTranslationsByCategory] finds an entry for it. *)
Theorem getTranslationsByCategory_agrees (c : jsstring) (dictionary : list Translation) :
  (forall e, In e (getTranslationsByCategory c dictionary) <->
             In e dictionary /\ category e = Some c) /\
  (c <> [] ->
   (In c (getCategories dictionary) <-> getTranslationsByCategory c dictionary <> [])).
Proof.
  assert (Hspec : forall e, In e (getTranslationsByCategory c dictionary) <->
                            In e dictionary /\ category e = Some c).
  { intros e. unfold getTranslationsByCategory, hasCategory. rewrite filter_In.
    destruct (category e) as [c'|]; [|split; intros [_ H]; discriminate].
    rewrite streq_eq. split; intros [H1 H2]; split; congruence. }
  split; [exact Hspec|].
  intros Hne. rewrite getCategories_In. split.
  - intros (_ & e & He & Hc) Hnil.
    assert (Hin : In e (getTranslationsByCategory c dictionary)) by now apply Hspec.
    rewrite Hnil in Hin. contradiction.
  - intros Hnonempty. split; [exact Hne|].
    destruct (getTranslationsByCategory c dictionary) as [|e rest] eqn:E;
      [contradiction|].
    exists e. apply Hspec. now left.
Qed.

Lemma getTranslationsByCategory_agrees_witness :
  js "greetings" <> [] /\
  In (js "greetings") (getCategories [abcxyEntry; helloEntry; helloEntry]) /\
  getTranslationsByCategory (js "greetings") [abcxyEntry; helloEntry; helloEntry] <> [].
Proof.
  destruct (getTranslationsByCategory_agrees (js "greetings")
              [abcxyEntry; helloEntry; helloEntry]) as [_ Hagree].
  assert (Hne : js "greetings" <> []) by discriminate.
  assert (Hfound : getTranslationsByCategory (js "greetings")
                     [abcxyEntry; helloEntry; helloEntry] <> []) by discriminate.
  split; [exact Hne|]. split; [|exact Hfound].
  apply (Hagree Hne). exact Hfound.
Defined.

(** ** LanguageConfig *)

Lemma isLanguageSupported_iff (c : jsstring) :
  isLanguageSupported c = true <-> c = js "en" \/ c = js "tlh".
Proof.
  unfold isLanguageSupported, languageOptions. cbn [existsb code].
  rewrite orb_false_r, orb_true_iff, !streq_eq.
  change (codeString en) with (js "en"). change (codeString tlh) with (js "tlh").
  split; intros [H|H]; auto.
Qed.

Lemma supported_is_not_klingon (c : jsstring) :
  isLanguageSupported c = true -> streq c (js "klingon") = false.
Proof. intros [-> | ->]%isLanguageSupported_iff; reflexivity. Qed.

(** X18.  The supported languages are the two codes "en" and "tlh" and
    nothing else; [getLanguageByCode] is defined exactly on them and returns
    the option carrying the code asked for, and [getLanguageName] gives back
    the code itself for every other string. *)
Theorem isLanguageSupported_codes (c : jsstring) :
  (isLanguageSupported c = true <-> c = js "en" \/ c = js "tlh") /\
  (isLanguageSupported c = true <-> getLanguageByCode c <> None) /\
  (forall language, getLanguageByCode c = Some language ->
     In language languageOptions /\ codeString (code language) = c) /\
  (isLanguageSupported c = false -> getLanguageName c = c).
Proof.
  split; [apply isLanguageSupported_iff|].
  unfold isLanguageSupported, getLanguageName, getLanguageByCode.
  repeat split.
  - intros (x & Hx & Hc)%existsb_exists Hnone.
    eapply find_none in Hnone; [|exact Hx]. congruence.
  - intros Hfound.
    destruct (find _ languageOptions) as [language|] eqn:E; [|contradiction].
    apply find_some in E. apply existsb_exists. eauto.
  - now apply find_some in H.
  - apply find_some in H as [_ H]. now apply streq_eq.
  - intros Hunsupported.
    destruct (find _ languageOptions) as [language|] eqn:E; [|reflexivity].
    apply find_some in E.
    assert (existsb (fun lang => streq (codeString (code lang)) c) languageOptions = true)
      by (apply existsb_exists; eauto).
    congruence.
Qed.

(** ** TranslationProcessor: further properties *)

(** X19.  On input that is not empty text the suggestions are the matches
    after the first, at most three of them and in the matcher's order: the
    best match followed by the suggestions is the first four matches. *)
Theorem processTranslation_suggestions (toLowerCase : jsstring -> jsstring)
    (inputText : jsstring) (matches : list Translation)
    (sourceLanguage targetLanguage : LanguageOption) :
  isEmptyText toLowerCase inputText = false ->
  exists r,
    processTranslation toLowerCase inputText matches sourceLanguage targetLanguage
    = Normal r /\
    suggestions r = firstn 3 (tail matches) /\
    length (suggestions r) = Nat.min 3 (length matches - 1) /\
    (forall best rest, matches = best :: rest ->
       best :: suggestions r = firstn 4 matches).
Proof.
  intros Hne. unfold processTranslation. rewrite Hne.
  destruct matches as [|best rest].
  - eexists. split; [reflexivity|]. simpl. repeat split. discriminate.
  - remember (Nat.min 3 (length (best :: rest) - 1)) as n eqn:Hn.
    destruct (calculateSimilarity_returns
                (normalizeText toLowerCase inputText)
                (normalizeText toLowerCase
                   (getField match code sourceLanguage with
                             | en => englishField | tlh => klingonField end best)))
      as (q & -> & _). simpl.
    eexists. split; [reflexivity|]. cbn [suggestions].
    change (slice 1 4 (best :: rest)) with (firstn 3 rest).
    split; [reflexivity|]. split.
    + rewrite length_take, Hn. cbn [length]. lia.
    + intros b r [= <- <-]. reflexivity.
Qed.

Lemma processTranslation_suggestions_witness :
  isEmptyText toLowerCaseASCII (js "hello") = false /\
  exists r,
    processTranslation toLowerCaseASCII (js "hello")
      [helloEntry; bracketEntry; silentEntry; helloEntry; bracketEntry; silentEntry]
      (Build_LanguageOption en [] [] ltr) (Build_LanguageOption tlh [] [] ltr)
    = Normal r /\
    suggestions r = [bracketEntry; silentEntry; helloEntry].
Proof.
  split; [reflexivity|].
  destruct (processTranslation_suggestions toLowerCaseASCII (js "hello")
              [helloEntry; bracketEntry; silentEntry; helloEntry; bracketEntry; silentEntry]
              (Build_LanguageOption en [] [] ltr) (Build_LanguageOption tlh [] [] ltr)
              eq_refl) as (r & Hr & Hs & _).
  exists r. split; [exact Hr|exact Hs].
Defined.

(** X20.  The confidence bands agree with the default success threshold: the
    label is "Excellent", "Good" or "Fair" exactly when the confidence is at
    least 0.5, so a result that [isSuccessfulTranslation] accepts at the
    default threshold is never labelled "Poor" or "No match". *)
Theorem getConfidenceDescription_success (c : Q) :
  ((1 # 2 <= c)%Q <->
   getConfidenceDescription c = js "Excellent" \/
   getConfidenceDescription c = js "Good" \/
   getConfidenceDescription c = js "Fair") /\
  (forall r, confidence r = c -> isSuccessfulTranslation r (1 # 2) = true ->
     getConfidenceDescription c <> js "Poor" /\
     getConfidenceDescription c <> js "No match").
Proof.
  assert (Hbands :
    (1 # 2 <= c)%Q <->
    getConfidenceDescription c = js "Excellent" \/
    getConfidenceDescription c = js "Good" \/
    getConfidenceDescription c = js "Fair").
  { unfold getConfidenceDescription, Qgeb.
    destruct (Qle_bool (9 # 10) c) eqn:E9.
    { apply Qle_bool_iff in E9. split; [auto|intros _; lra]. }
    destruct (Qle_bool (7 # 10) c) eqn:E7.
    { apply Qle_bool_iff in E7. split; [auto|intros _; lra]. }
    destruct (Qle_bool (5 # 10) c) eqn:E5.
    { apply Qle_bool_iff in E5. split; [auto|intros _; lra]. }
    assert (~ (5 # 10 <= c)%Q) by (intros H%Qle_bool_iff; congruence).
    destruct (Qle_bool (3 # 10) c); (split; [intros; lra|]);
      intros [H1|[H1|H1]]; discriminate H1. }
  split; [exact Hbands|].
  intros r <- Hsuccess. unfold isSuccessfulTranslation, Qgeb in Hsuccess.
  apply andb_prop in Hsuccess as [[Hc%Qle_bool_iff _]%andb_prop _].
  apply Hbands in Hc. split; intros Heq; rewrite Heq in Hc;
    destruct Hc as [H|[H|H]]; discriminate H.
Qed.

(** ** translationService: further properties *)

Lemma startsWith_bracketed (t : jsstring) :
  startsWith (bracketed t) (js "[") = true.
Proof.
  change (bracketed t) with (91%N :: (t ++ js "]")).
  change (js "[") with [91%N]. cbn [startsWith].
  destruct (t ++ js "]"); reflexivity.
Qed.

(** With supported codes the source language handed to [processTranslation]
    is always English. *)
Lemma translateText_supported (toLowerCase : jsstring -> jsstring)
    (dictionary : list Translation) (options : TranslationOptions) :
  isEmptyText toLowerCase (text options) = false ->
  isLanguageSupported (fromLanguage options) = true ->
  isLanguageSupported (toLanguage options) = true ->
  exists sourceLanguage targetLanguage,
    code sourceLanguage = en /\
    translateText toLowerCase dictionary options =
    (matches ← findMatches toLowerCase (text options) dictionary
                 (if streq (toLowerCase (fromLanguage options)) (js "klingon")
                  then klingonField else englishField);
     processTranslation toLowerCase (text options) matches
       sourceLanguage targetLanguage).
Proof.
  intros Hne Hfrom Hto. unfold translateText. rewrite Hne, Hfrom, Hto. simpl.
  rewrite (supported_is_not_klingon _ Hfrom).
  eexists _, _. split; [|reflexivity]. reflexivity.
Qed.

Lemma translateText_error_cases (toLowerCase : jsstring -> jsstring)
    (dictionary : list Translation) (options : TranslationOptions) :
  isEmptyText toLowerCase (text options) = true \/
  isLanguageSupported (fromLanguage options) = false \/
  isLanguageSupported (toLanguage options) = false ->
  translateText toLowerCase dictionary options
  = Normal (createErrorResult [] (text options)).
Proof.
  unfold translateText. intros [->|[->| ->]]; [reflexivity| |].
  - now destruct (isEmptyText _ _).
  - destruct (isEmptyText _ _); [reflexivity|]. simpl. now rewrite orb_true_r.
Qed.

(** What a run of [translateText] returns, by the entry it takes from. *)
Lemma translateText_outcome (toLowerCase : jsstring -> jsstring)
    (dictionary : list Translation) (options : TranslationOptions) :
  exists r,
    translateText toLowerCase dictionary options = Normal r /\
    (r = createErrorResult [] (text options) \/
     r = createUnknownResult (text options) \/
     exists e, In e dictionary /\ output r = klingon e /\
               result_phonetic r = phonetic e).
Proof.
  destruct (isEmptyText toLowerCase (text options)) eqn:Hempty.
  { eexists. split; [apply translateText_error_cases; auto|auto]. }
  destruct (isLanguageSupported (fromLanguage options)) eqn:Hfrom.
  2:{ eexists. split; [apply translateText_error_cases; auto|auto]. }
  destruct (isLanguageSupported (toLanguage options)) eqn:Hto.
  2:{ eexists. split; [apply translateText_error_cases; auto|auto]. }
  destruct (translateText_supported toLowerCase dictionary options Hempty Hfrom Hto)
    as (sl & tgt & Hcode & ->).
  match goal with
  | |- context [findMatches toLowerCase ?i ?d ?fld] =>
      destruct (findMatches_spec toLowerCase i d fld) as (matches & -> & Hperm & _)
  end. simpl.
  unfold processTranslation. rewrite Hempty, Hcode.
  destruct matches as [|best rest].
  - eexists. split; [reflexivity|]. auto.
  - destruct (calculateSimilarity_returns
                (normalizeText toLowerCase (text options))
                (normalizeText toLowerCase (getField englishField best)))
      as (q & -> & _). simpl.
    eexists. split; [reflexivity|]. right. right. exists best. simpl.
    split; [|auto].
    eapply keptEntries_In, Permutation_in; [exact Hperm|]. now left.
Qed.

(** X21.  Every translation is into Klingon: whatever the two language
    strings, the output of [translateText] is the empty string, the
    bracket-wrapped input, or the Klingon text of a dictionary entry with that
    entry's pronunciation.  The language pair "tlh" to "en" is no exception. *)
Theorem translateText_always_klingon (toLowerCase : jsstring -> jsstring)
    (dictionary : list Translation) (options : TranslationOptions) :
  exists r,
    translateText toLowerCase dictionary options = Normal r /\
    ((output r = [] /\ result_phonetic r = None) \/
     (output r = bracketed (text options) /\ result_phonetic r = None) \/
     exists e, In e dictionary /\ output r = klingon e /\
               result_phonetic r = phonetic e).
Proof.
  destruct (translateText_outcome toLowerCase dictionary options)
    as (r & Hr & [-> | [-> | H]]); exists r || eexists; eauto.
Qed.

(** X22.  A result of [translateText] that [isSuccessfulTranslation] accepts,
    at any threshold, is a real translation: its confidence reaches the
    threshold and its output is the Klingon text of a dictionary entry,
    neither empty nor beginning with a bracket.  The error result and the
    bracket-wrapped result are never accepted. *)
Theorem translateText_success_is_real (toLowerCase : jsstring -> jsstring)
    (dictionary : list Translation) (options : TranslationOptions)
    (r : TranslationResult) (threshold : Q) :
  translateText toLowerCase dictionary options = Normal r ->
  isSuccessfulTranslation r threshold = true ->
  (threshold <= confidence r)%Q /\
  exists e, In e dictionary /\ output r = klingon e /\
            klingon e <> [] /\ startsWith (klingon e) (js "[") = false.
Proof.
  intros Hrun Hsuccess.
  destruct (translateText_outcome toLowerCase dictionary options)
    as (r' & Hr' & Hshape).
  rewrite Hrun in Hr'. injection Hr' as <-.
  unfold isSuccessfulTranslation, Qgeb in Hsuccess.
  apply andb_prop in Hsuccess as [[Hc%Qle_bool_iff Hout]%andb_prop Hbracket].
  split; [exact Hc|].
  destruct Hshape as [-> | [-> | (e & He & Ho & _)]];
    [discriminate Hout|
     cbn [output createUnknownResult] in Hbracket;
     now rewrite startsWith_bracketed in Hbracket|].
  exists e. rewrite Ho in Hout, Hbracket. repeat split; auto.
  - intros Hnil. now rewrite Hnil in Hout.
  - now apply negb_true_iff.
Qed.

Lemma translateText_success_is_real_witness :
  exists r,
    translateText toLowerCaseASCII [helloEntry]
      {| text := js "Hello!"; fromLanguage := js "en"; toLanguage := js "tlh" |}
    = Normal r /\
    isSuccessfulTranslation r (1 # 2) = true /\
    (1 # 2 <= confidence r)%Q /\
    exists e, In e [helloEntry] /\ output r = klingon e /\
              klingon e <> [] /\ startsWith (klingon e) (js "[") = false.
Proof.
  eexists. split; [vm_compute; reflexivity|]. split; [reflexivity|].
  apply (translateText_success_is_real toLowerCaseASCII [helloEntry]
           {| text := js "Hello!"; fromLanguage := js "en"; toLanguage := js "tlh" |}).
  - vm_compute. reflexivity.
  - reflexivity.
Defined.

(** X23.  A language string other than the codes "en" and "tlh", on either
    side, gives the result of empty input: output empty, confidence 0, no
    pronunciation and no suggestions, whatever the text and the dictionary. *)
Theorem translateText_unsupported_pair (toLowerCase : jsstring -> jsstring)
    (dictionary : list Translation) (options : TranslationOptions) :
  (fromLanguage options <> js "en" /\ fromLanguage options <> js "tlh") \/
  (toLanguage options <> js "en" /\ toLanguage options <> js "tlh") ->
  translateText toLowerCase dictionary options
  = Normal {| input := text options; output := []; result_phonetic := None;
              confidence := 0; suggestions := [] |}.
Proof.
  intros Hpair. apply translateText_error_cases. right.
  destruct Hpair as [[H1 H2]|[H1 H2]]; [left|right];
    (destruct (isLanguageSupported _) eqn:E; [|reflexivity]);
    apply isLanguageSupported_iff in E; tauto.
Qed.

Lemma translateText_unsupported_pair_witness :
  translateText toLowerCaseASCII [helloEntry]
    {| text := js "hello"; fromLanguage := js "en"; toLanguage := js "vulcan" |}
  = Normal {| input := js "hello"; output := []; result_phonetic := None;
              confidence := 0; suggestions := [] |}.
Proof.
  apply (translateText_unsupported_pair toLowerCaseASCII [helloEntry]
           {| text := js "hello"; fromLanguage := js "en"; toLanguage := js "vulcan" |}).
  right. split; discriminate.
Defined.

(** ** translationService: the scenarios, for every dictionary *)

Lemma supported_lower_is_not_klingon (toLowerCase : jsstring -> jsstring) (c : jsstring) :
  (forall t, Forall isASCII t -> toLowerCase t = toLowerCaseASCII t) ->
  isLanguageSupported c = true ->
  streq (toLowerCase c) (js "klingon") = false.
Proof.
  intros Hlower [-> | ->]%isLanguageSupported_iff;
    (rewrite Hlower; [reflexivity|repeat constructor]).
Qed.

(** With supported codes [translateText] searches the English field. *)
Lemma translateText_searches_english (toLowerCase : jsstring -> jsstring)
    (dictionary : list Translation) (options : TranslationOptions) :
  (forall t, Forall isASCII t -> toLowerCase t = toLowerCaseASCII t) ->
  isEmptyText toLowerCase (text options) = false ->
  isLanguageSupported (fromLanguage options) = true ->
  isLanguageSupported (toLanguage options) = true ->
  exists sourceLanguage targetLanguage,
    code sourceLanguage = en /\
    translateText toLowerCase dictionary options =
    (matches ← findMatches toLowerCase (text options) dictionary englishField;
     processTranslation toLowerCase (text options) matches
       sourceLanguage targetLanguage).
Proof.
  intros Hlower Hne Hfrom Hto.
  destruct (translateText_supported toLowerCase dictionary options Hne Hfrom Hto)
    as (sl & tgt & Hcode & Hrun).
  rewrite (supported_lower_is_not_klingon _ _ Hlower Hfrom) in Hrun. eauto.
Qed.

(** X24.  The no-match scenario: with supported codes and text that is not
    empty, if no dictionary entry with an English text is assigned a
    similarity above 0.6, [translateText] returns the input wrapped in
    brackets, with confidence 0, no pronunciation and no suggestions. *)
Theorem translateText_no_match (toLowerCase : jsstring -> jsstring)
    (dictionary : list Translation) (options : TranslationOptions) :
  (forall t, Forall isASCII t -> toLowerCase t = toLowerCaseASCII t) ->
  isEmptyText toLowerCase (text options) = false ->
  isLanguageSupported (fromLanguage options) = true ->
  isLanguageSupported (toLanguage options) = true ->
  (forall e q, In e dictionary -> english e <> [] ->
     calculateMatchSimilarity toLowerCase (normalizeText toLowerCase (text options))
       (english e) = Normal q ->
     (q <= 6 # 10)%Q) ->
  translateText toLowerCase dictionary options
  = Normal {| input := text options; output := bracketed (text options);
              result_phonetic := None; confidence := 0; suggestions := [] |}.
Proof.
  intros Hlower Hne Hfrom Hto Hnone.
  destruct (translateText_searches_english toLowerCase dictionary options
              Hlower Hne Hfrom Hto) as (sl & tgt & _ & ->).
  destruct (findMatches_spec toLowerCase (text options) dictionary englishField)
    as (matches & -> & Hperm & _). simpl.
  assert (Hnil : matches = []).
  { destruct matches as [|m rest]; [reflexivity|]. exfalso.
    assert (Hin : In m (m :: rest)) by now left.
    apply (Permutation_in _ Hperm), keptEntries_In in Hin as [Hin Hpass].
    unfold passes in Hpass. apply andb_prop in Hpass as [Htruthy Hpass].
    simpl in Htruthy, Hpass.
    destruct (calculateMatchSimilarity _ _ _) as [q|] eqn:Hq; [|discriminate].
    apply Qgtb_lt in Hpass.
    assert (q <= 6 # 10)%Q.
    { apply (Hnone m q Hin); [now destruct (english m)|exact Hq]. }
    lra. }
  subst matches. unfold processTranslation. now rewrite Hne.
Qed.

Lemma translateText_no_match_witness :
  translateText toLowerCaseASCII [helloEntry; silentEntry]
    {| text := js "xyzzy123"; fromLanguage := js "en"; toLanguage := js "tlh" |}
  = Normal {| input := js "xyzzy123"; output := js "[xyzzy123]";
              result_phonetic := None; confidence := 0; suggestions := [] |}.
Proof.
  apply (translateText_no_match toLowerCaseASCII [helloEntry; silentEntry]
           {| text := js "xyzzy123"; fromLanguage := js "en"; toLanguage := js "tlh" |}).
  - reflexivity.
  - reflexivity.
  - reflexivity.
  - reflexivity.
  - intros e q [<-|[<-|[]]] _ Hq; vm_compute in Hq; injection Hq as <-;
      unfold Qle; simpl; lia.
Defined.

(** X25.  The exact-match scenario: with supported codes, if the normalised
    text equals the normalised English text of a dictionary entry and no
    earlier entry is an exact match, [translateText] returns that entry's
    Klingon text and pronunciation with confidence 1. *)
Theorem translateText_exact_match (toLowerCase : jsstring -> jsstring)
    (before after : list Translation) (e : Translation)
    (options : TranslationOptions) :
  (forall t, Forall isASCII t -> toLowerCase t = toLowerCaseASCII t) ->
  trim (text options) <> [] ->
  isEmptyText toLowerCase (text options) = false ->
  isLanguageSupported (fromLanguage options) = true ->
  isLanguageSupported (toLanguage options) = true ->
  english e <> [] ->
  normalizeText toLowerCase (text options) = normalizeText toLowerCase (english e) ->
  Forall (fun x =>
            english x <> [] ->
            isExactMatch toLowerCase (normalizeText toLowerCase (text options))
              (normalizeText toLowerCase (english x)) = false)
         before ->
  exists r,
    translateText toLowerCase (before ++ e :: after) options = Normal r /\
    output r = klingon e /\
    result_phonetic r = phonetic e /\
    (confidence r == 1)%Q.
Proof.
  intros Hlower Htrim Hne Hfrom Hto Henglish Hsame Hbefore.
  destruct (translateText_searches_english toLowerCase (before ++ e :: after) options
              Hlower Hne Hfrom Hto) as (sl & tgt & Hcode & ->).
  destruct (findMatches_first_exact_aux toLowerCase (text options) before after e
              englishField Htrim Henglish) as (rest & ->).
  { unfold isExactMatch. simpl. rewrite Hsame. apply streq_refl. }
  { exact Hbefore. }
  simpl. unfold processTranslation. rewrite Hne, Hcode. simpl getField.
  rewrite Hsame.
  destruct (calculateSimilarity_reflexive_aux (normalizeText toLowerCase (english e)))
    as (q & -> & Hq). simpl.
  eexists. split; [reflexivity|]. simpl. auto.
Qed.

Lemma translateText_exact_match_witness :
  exists r,
    translateText toLowerCaseASCII ([abcxyEntry] ++ helloEntry :: [bracketEntry])
      {| text := js "  HELLO?  "; fromLanguage := js "en"; toLanguage := js "tlh" |}
    = Normal r /\
    output r = js "nuqneH" /\
    result_phonetic r = Some (js "NOOK-neh") /\
    (confidence r == 1)%Q.
Proof.
  apply (translateText_exact_match toLowerCaseASCII [abcxyEntry] [bracketEntry] helloEntry
           {| text := js "  HELLO?  "; fromLanguage := js "en"; toLanguage := js "tlh" |}).
  - reflexivity.
  - discriminate.
  - reflexivity.
  - reflexivity.
  - reflexivity.
  - discriminate.
  - reflexivity.
  - repeat constructor.
Defined.

(** ** The callers *)

(** X26.  The request the [useTranslation] hook builds names the languages
    "english" and "klingon", which [translateText] does not accept: whatever
    the text, the selected languages and the dictionary, the hook is answered
    with the error result, output empty and confidence 0. *)
Theorem hook_request_rejected (toLowerCase : jsstring -> jsstring)
    (dictionary : list Translation) (textToTranslate : jsstring)
    (sourceLanguage targetLanguage : LanguageOption) :
  translateText toLowerCase dictionary
    (hookTranslationOptions textToTranslate sourceLanguage targetLanguage)
  = Normal {| input := textToTranslate; output := []; result_phonetic := None;
              confidence := 0; suggestions := [] |}.
Proof.
  apply (translateText_error_cases toLowerCase dictionary
           (hookTranslationOptions textToTranslate sourceLanguage targetLanguage)).
  right. left. unfold hookTranslationOptions. simpl.
  destruct (code sourceLanguage); reflexivity.
Qed.
